(* ===== verification/_CoqProject ===== *)
-Q . S2P
Prelude.v
Node.v
Slot.v
Balance.v
Tree.v
Insert.v
Erase.v
Query.v
AVL.v
Machine.v
