(* ===== verification/Prelude.v ===== *)
(** * AVL-Tree (guoyiz23/AVL-Tree): a verification development

    The program is an order-statistic AVL tree with range sums,
    [template <class T> class AVLTree] in src/onefile.cpp (the node
    struct is also declared in src/AVLTreeNode.hpp).  Each node caches the
    number of nodes ([count]), the height and the sum of its subtree.
    [insert] and [erase] walk down from [root] through owning slots
    ([AVLTreeNode<T>**]), record the slots they pass in [path], and then
    [balance] walks [path] bottom-up: it recomputes each node's cached
    fields and rotates where the heights differ by two.  The queries
    [find], [lower_bound], [upper_bound], [find_min], [find_max],
    [operator\[\]] and [sum] descend once from the root, reading the cached
    fields.

    ** Files, in dependency order

    - [Prelude] (this file): the scope [avl_scope] with [Σ] (sum of a
      list), [l ≤* v] and [v *≤ l]; the abstract sorted multiset
      ([ins_sorted], [remove_one], [count_lt], [count_le], [in_range]);
      the tactic [decide_compute]; the hint databases [avl] and [avl_rw];
      and the shared lemmas on lists, filters, sums and sortedness.
    - [Node], Module [AVLNode]: [struct AVLTreeNode] (lines 11-76).  A
      nullable pointer is the inductive [AVLTreeNode] ([nullptr] or
      [Node left right value count height sum]).  The cached fields are
      stored, so a stale field can be expressed.  [updateValues],
      [balanceFactor], [left_rotate] and [right_rotate] are the methods.
      A null dereference is [None].
    - [Slot], Module [Slot]: an owning slot [AVLTreeNode**] is its address
      from the root, a list of [ToLeft]/[ToRight] links.  [get] reads
      through it ([*indirect]) and [put] writes through it
      ([*indirect = x]).  The code's slot is the address of a field of
      an ancestor node.  [balance] visits the slots bottom-up, and a write
      through a slot moves only nodes below it.  So every slot still to be
      visited names the field the pointer-to-pointer names.  For the same
      reason, [erase]'s rewrite of [path\[index\]] (from [&target->right]
      to [&successor->right], after the successor took the target's
      place) names the same address.
    - [Balance], Module [Balance]: [balance] (lines 236-259).  It is a
      loop over the reversed path whose body is [balance_node].
      [rebalance] is the total recursive specification, and
      [rebalance_along] runs it bottom-up along a descent.
    - [Tree], Module [Tree]: the members [_size] and [root] as the record
      [AVLTree], the constructor, [clear] (an explicit stack), [empty] and
      [size].  It also holds the invariant [tree_inv]: cached fields
      exact ([wf]), in-order sequence non-decreasing ([bst]), and [_size]
      equal to the root's [count].
    - [Insert], Module [Insert]: [insert] (lines 145-164), the descent
      [insert_descent], and the recursive [ins] it refines.
    - [Erase], Module [Erase]: [erase] (lines 166-234), with the descent
      [erase_descent], the successor search [successor_descent] and the
      three splice cases [erase_splice]: no right child; a right child
      with no left child; a deeper successor, where the recorded path is
      patched.
    - [Query], Module [Query]: the read-only members (lines 271-452),
      including the two boundary walks of [sum].
    - [AVL], Module [AVL]: the AVL invariant [balanced], the
      height-balance argument for [insert], and the bound on the length
      of the search loops of [insert] and [erase] on balanced trees.
    - [Machine], Module [Machine]: sequences of [insert]/[erase]/[clear]
      calls ([step], [run]), the reachable states, the abstract multiset
      they refine, and the specification's strict order [spec_bst].

    ** What the theorems show

    - Functional correctness: [insert] and [erase] never fault on a tree
      satisfying [tree_inv], keep it, and add or remove one occurrence of
      the value in the sorted multiset of elements
      ([Insert.insert_correct], [Erase.erase_correct]).  Every query
      returns the value its contract names on that multiset ([Query.*]);
      [operator\[\]] does so for indices whose low 32 bits are a
      non-negative [int], and wraps around past them.
      [clear] empties the tree ([Tree.clear_correct]).
    - Refinement: the slot-walking [insert] computes the recursive [ins]
      ([Insert.insert_refines]).  [erase] computes the recursive [del]
      ([Erase.erase_refines]): the spine below the successor is rebalanced
      as [del_min] does, which is what the code's patch of the recorded
      path achieves.  [balance] computes [rebalance_along]
      ([Balance.balance_correct]).  Any sequence of calls follows the
      abstract multiset ([Machine.run_refines]).
    - Invariants: every reachable state satisfies [tree_inv]
      ([Machine.reachable_inv], by rule induction).  [insert] keeps the
      AVL balance ([AVL.insert_balanced]).  On a balanced tree the
      search loops of [insert] and [erase], and so the path [balance]
      walks, have at most [2 log2 (size + 1) + 1] iterations
      ([AVL.descent_length]).
    - Findings:
      - [erase] does NOT keep the AVL balance
        ([Machine.erase_breaks_balance]).  [balance] uses a double
        rotation when the taller child is level, and this only happens
        after a deletion.  The search order and the cached fields stay
        exact.
      - The constructor leaves [sum = T()] ([AVLNode.new_node_not_wf]).
      - Rotations put equal values in the left subtree, against the
        specification's strict order ([Machine.equal_values_left]), and
        [find] reports some occurrence of a duplicate.
      - [operator\[\]] compares counts with [int(idx)]: an index of
        [2^32] or more wraps around instead of failing
        ([Query.operator_at_correct]).

    ** Modelling choices, fuel and bounds

    - [T] is [Z], for [long long] in the driver; an overflow of a
      [long long] value or sum (past [2^63 - 1]) is not modelled.
    - [count], [height], [_size] and the ranks of [find],
      [lower_bound] and [upper_bound] are [int] in the code and [Z]
      here.  Their overflow needs more than [2^31 - 1] nodes and is not
      modelled; the theorems that go through [operator\[\]] with an index
      below [size] assume [size < 2^31].
    - [operator\[\]]'s [std::size_t] index is modelled exactly: its
      [int(idx)] conversion is [Query.int_of] (the low 32 bits in two's
      complement) and [idx -= left + 1] is subtraction modulo [2^64]
      ([Query.size_t_sub]).
    - The only loop that does not descend a structure is [clear]'s stack
      loop.  It runs on fuel one above the node count, and
      [Tree.clear_loop_nodes] shows that this fuel is always enough, so
      [clear] returns [Some].  Every other loop is a structural
      [Fixpoint] on the tree or on the path.
    - A failed [assert] (in [sum], lines 368-452) and a null dereference
      are both [None].

    ** Not modelled

    - [display] (lines 454-491) only prints to [std::cerr].
    - [main] (lines 494-507) is a driver of random insertions and
      printing.
    - The destructor only calls [clear].
    - [new]/[delete] are modelled as the allocation or disappearance of a
      subtree value; memory safety is not a question in this model. *)

From Stdlib Require Import ZArith Lia.
From stdpp Require Import base list sorting numbers sets.

Declare Scope avl_scope.
Delimit Scope avl_scope with avl.
Open Scope Z_scope.

(** ** Multisets of values as sorted lists *)

(** The value type [T] of the template is instantiated by [long long] in
    the driver; values, the aggregate [sum] and the additive identity [T()]
    are modelled as [Z] and [0]. *)

(** Sum of a list of values: the quantity the field [sum] caches. *)
Definition sum_list (l : list Z) : Z := foldr Z.add 0 l.

Notation "'Σ' l" := (sum_list l) (at level 10, l at level 9) : avl_scope.
Notation "l ≤* v" := (Forall (λ y, Z.le y v) l) (at level 70) : avl_scope.
Notation "v *≤ l" := (Forall (λ y, Z.le v y) l) (at level 70) : avl_scope.
Abbreviation sorted := (StronglySorted Z.le).

Open Scope avl_scope.

(** The abstract multiset insert: [v] goes before the first strictly
    greater element. *)
Fixpoint ins_sorted (v : Z) (l : list Z) : list Z :=
  match l with
  | [] => [v]
  | x :: l' => if decide (v < x) then v :: x :: l' else x :: ins_sorted v l'
  end.

(** The abstract multiset erase: drop the first occurrence of [v]. *)
Fixpoint remove_one (v : Z) (l : list Z) : list Z :=
  match l with
  | [] => []
  | x :: l' => if decide (x = v) then l' else x :: remove_one v l'
  end.

(** Number of elements strictly below / at most [v]. *)
Definition count_lt (v : Z) (l : list Z) : nat := length (filter (λ y, y < v) l).
Definition count_le (v : Z) (l : list Z) : nat := length (filter (λ y, y ≤ v) l).

(** Elements of the closed interval [\[lo, hi\]]. *)
Definition in_range (lo hi : Z) (l : list Z) : list Z :=
  filter (λ y, lo ≤ y ∧ y ≤ hi) l.

(** ** Tactics *)

(** Close a decidable proposition about a concrete tree by evaluation. *)
Ltac decide_compute := apply (bool_decide_unpack _); vm_compute; reflexivity.

(** Arithmetic modulo the widths of [int] and [std::size_t]. *)
Ltac mod_lia := Z.to_euclidean_division_equations; lia.

Create HintDb avl discriminated.

(** Deciding the boolean comparisons of the code from their Prop form. *)
Lemma Z_geb_true a b : b ≤ a → (a >=? b) = true.
Proof. intros. apply Z.geb_le. lia. Qed.
Lemma Z_geb_false a b : a < b → (a >=? b) = false.
Proof. intros. rewrite Z.geb_leb. apply Z.leb_gt. lia. Qed.
Lemma Z_leb_true a b : a ≤ b → (a <=? b) = true.
Proof. intros. by apply Z.leb_le. Qed.
Lemma Z_leb_false a b : b < a → (a <=? b) = false.
Proof. intros. by apply Z.leb_gt. Qed.
Create Rewrite HintDb avl_rw.

#[export] Instance Z_le_antisymm : AntiSymm (=) Z.le.
Proof. intros x y ??. lia. Qed.

(** ** The option monad *)

Lemma bind_ret_r {A} (m : option A) : (m ≫= λ x, Some x) = m.
Proof. by destruct m. Qed.

(** ** Lists *)

Lemma Forall_weaken {A} (P Q : A → Prop) l : Forall P l → (∀ x, P x → Q x) → Forall Q l.
Proof. intros H HPQ. induction H; constructor; auto. Qed.

Lemma Forall_elem {A} (P : A → Prop) l x : Forall P l → x ∈ l → P x.
Proof. intros H Hx. rewrite Forall_forall in H. apply H. first [done | by apply list_elem_of_In]. Qed.

Section filters.
Context {A : Type} (P Q : A → Prop) `{∀ x, Decision (P x)} `{∀ x, Decision (Q x)}.

Lemma filter_Forall_all l : Forall P l → filter P l = l.
Proof. induction 1; simpl; [done|]. rewrite filter_cons_True by done. by f_equal. Qed.

Lemma filter_Forall_none l : Forall (λ x, ¬ P x) l → filter P l = [].
Proof. induction 1; simpl; [done|]. by rewrite filter_cons_False. Qed.

Lemma filter_Forall_ext l : Forall (λ x, P x ↔ Q x) l → filter P l = filter Q l.
Proof.
  induction 1 as [|x l Hx _ IH]; simpl; [done|].
  destruct (decide (P x)).
  - rewrite !filter_cons_True by naive_solver. by f_equal.
  - rewrite !filter_cons_False by naive_solver. done.
Qed.
End filters.

(** ** Lemmas on sums *)

Lemma sum_list_app l1 l2 : Σ (l1 ++ l2) = Σ l1 + Σ l2.
Proof. induction l1; simpl; lia. Qed.

Lemma sum_list_cons x l : Σ (x :: l) = x + Σ l.
Proof. done. Qed.

#[export] Hint Rewrite sum_list_app sum_list_cons : avl_rw.

(** ** Lemmas on bounds and sortedness *)

Lemma Forall_le_trans l v w : l ≤* v → v ≤ w → l ≤* w.
Proof. intros H ?. eapply Forall_impl; [exact H|]. simpl; lia. Qed.

Lemma Forall_ge_trans l v w : v *≤ l → w ≤ v → w *≤ l.
Proof. intros H ?. eapply Forall_impl; [exact H|]. simpl; lia. Qed.

#[export] Hint Resolve Forall_le_trans Forall_ge_trans : avl.

Lemma sorted_app_cons l1 v l2 :
  sorted (l1 ++ v :: l2) ↔ sorted l1 ∧ sorted l2 ∧ l1 ≤* v ∧ v *≤ l2.
Proof.
  rewrite StronglySorted_app, StronglySorted_cons, !Forall_forall.

  split.
  - intros (Hx & ? & ? & ?). split_and!; try done.
    intros x Hx'. apply Hx; [done | constructor].
  - intros (? & ? & H1 & H2). split_and!; try done.
    intros x1 x2 Hx1 [-> | Hx2]%elem_of_cons; [by apply H1|].
    transitivity v; [by apply H1 | by apply H2].
Qed.

(** Two sorted lists separated by a pivot concatenate to a sorted list. *)
Lemma sorted_app_split l1 v l2 :
  sorted l1 → sorted l2 → l1 ≤* v → v *≤ l2 → sorted (l1 ++ l2).
Proof.
  intros ?? H1 H2. apply StronglySorted_app; split_and!; [|done..].
  rewrite Forall_forall in H1, H2. intros x1 x2 ??.
  transitivity v; auto.
Qed.

(** A sorted list is its values below [v] followed by the others. *)
Lemma sorted_filter_split v l :
  sorted l → l = filter (λ y, y < v) l ++ filter (λ y, v ≤ y) l.
Proof.
  induction 1 as [|x l Hl IH Hx]; [done|]. destruct (decide (x < v)).
  - rewrite filter_cons_True, filter_cons_False by lia. simpl. by f_equal.
  - rewrite filter_cons_False, filter_cons_True by lia.
    rewrite filter_Forall_none, filter_Forall_all; [done| |].
    + apply (Forall_weaken _ _ _ Hx). lia.
    + apply (Forall_weaken _ _ _ Hx). lia.
Qed.

Lemma sorted_unique l1 l2 : sorted l1 → sorted l2 → l1 ≡ₚ l2 → l1 = l2.
Proof. apply StronglySorted_unique; apply _. Qed.

(** ** The abstract multiset operations *)

Lemma ins_sorted_perm v l : ins_sorted v l ≡ₚ v :: l.
Proof.
  induction l as [|x l IH]; simpl; [done|].
  case_decide; [done|]. rewrite IH. apply Permutation_swap.
Qed.

Lemma ins_sorted_sorted v l : sorted l → sorted (ins_sorted v l).
Proof.
  induction 1 as [|x l Hl IH Hx]; simpl; [repeat constructor|].
  case_decide.
  - constructor; [by constructor|]. constructor; [lia|].
    eapply Forall_impl; [exact Hx|]. simpl; lia.
  - constructor; [done|]. rewrite ins_sorted_perm. constructor; [lia|done].
Qed.

Lemma remove_one_perm v l : v ∈ l → l ≡ₚ v :: remove_one v l.
Proof.
  induction l as [|x l IH]; simpl; [by intros ?%elem_of_nil|].
  intros [-> | Hin]%elem_of_cons; case_decide; subst; try done.
  rewrite (IH Hin) at 1. apply Permutation_swap.
Qed.

Lemma remove_one_notin v l : v ∉ l → remove_one v l = l.
Proof.
  induction l as [|x l IH]; simpl; [done|]. intros Hin.
  case_decide; subst; [set_solver|]. rewrite IH; set_solver.
Qed.

Lemma Forall_remove_one (P : Z → Prop) v l : Forall P l → Forall P (remove_one v l).
Proof.
  induction 1; simpl; [done|]. case_decide; [done|]. by constructor.
Qed.

Lemma remove_one_sorted v l : sorted l → sorted (remove_one v l).
Proof.
  induction 1; simpl; [constructor|].
  case_decide; [done|]. constructor; [done|]. by apply Forall_remove_one.
Qed.

Lemma length_remove_one v l : v ∈ l → length l = S (length (remove_one v l)).
Proof. intros H. by rewrite (Permutation_length (remove_one_perm v l H)). Qed.

#[export] Hint Resolve ins_sorted_sorted remove_one_sorted Forall_remove_one : avl.

(** Inserting [v] between a prefix [≤ v] and a suffix [≥ v] is the
    abstract insert. *)
Lemma ins_sorted_middle l1 v l2 :
  sorted (l1 ++ v :: l2) → l1 ++ v :: l2 = ins_sorted v (l1 ++ l2).
Proof.
  intros Hs. apply sorted_unique; [done| |].
  - apply ins_sorted_sorted. apply sorted_app_cons in Hs as (? & ? & ? & ?).
    by eapply sorted_app_split.
  - rewrite ins_sorted_perm. by rewrite Permutation_middle.
Qed.

(** Removing any occurrence of [v] from a sorted list is the abstract erase. *)
Lemma remove_one_middle l1 v l2 :
  sorted (l1 ++ v :: l2) → l1 ++ l2 = remove_one v (l1 ++ v :: l2).
Proof.
  intros Hs. apply sorted_unique.
  - apply sorted_app_cons in Hs as (? & ? & ? & ?).
    by eapply sorted_app_split.
  - by apply remove_one_sorted.
  - apply (Permutation_cons_inv (a:=v)).
    rewrite <-remove_one_perm by set_solver. by rewrite Permutation_middle.
Qed.
