(* ===== verification/Node.v ===== *)
(** * Node: the augmented node [AVLTreeNode<T>]

    Models [struct AVLTreeNode] and its methods (src/onefile.cpp, lines
    11-76; the same declaration is in src/AVLTreeNode.hpp): a nullable
    owning pointer to a node is a value of [AVLTreeNode], [nullptr] or
    [Node left right value count height sum], the fields in the order of
    the struct.  The cached fields [count], [height] and [sum] are stored,
    not computed, so that a stale field can be expressed; [wf] says that
    every cached field agrees with the subtree below it.

    A method call [p->m()] on a pointer that may be null is modelled by
    [deref p] in the option monad: [None] is a null dereference.  The
    rotations return [None] exactly when the child they promote is null. *)

From Stdlib Require Import ZArith Lia.
From stdpp Require Import base list sorting numbers sets.
From S2P Require Import Prelude.

Open Scope Z_scope.
Open Scope avl_scope.

Module AVLNode.

(** [AVLTreeNode<T>*]: [nullptr] or an owned node. *)
Inductive AVLTreeNode : Type :=
| nullptr
| Node (left right : AVLTreeNode) (value : Z) (count height : Z) (sum : Z).

#[export] Instance AVLTreeNode_eq_dec : EqDecision AVLTreeNode.
Proof. solve_decision. Defined.

(** [p->f] on a pointer the code may find null: [None] is the fault. *)
Definition deref (p : AVLTreeNode) : option AVLTreeNode :=
  match p with nullptr => None | _ => Some p end.

Definition left (p : AVLTreeNode) : AVLTreeNode :=
  match p with nullptr => nullptr | Node l _ _ _ _ _ => l end.
Definition right (p : AVLTreeNode) : AVLTreeNode :=
  match p with nullptr => nullptr | Node _ r _ _ _ _ => r end.

(** The guarded reads [p != nullptr ? p->f : 0] of the code. *)
Definition count_of (p : AVLTreeNode) : Z :=
  match p with nullptr => 0 | Node _ _ _ c _ _ => c end.
Definition height_of (p : AVLTreeNode) : Z :=
  match p with nullptr => 0 | Node _ _ _ _ h _ => h end.
Definition sum_of (p : AVLTreeNode) : Z :=
  match p with nullptr => 0 | Node _ _ _ _ _ s => s end.

(** [AVLTreeNode(T value)]: count 1, height 1, [sum = T()], no children.
    The sum is the additive identity, not [value]: [balance] recomputes it. *)
Definition new_node (value : Z) : AVLTreeNode := Node nullptr nullptr value 1 1 0.

(** [updateValues()]: recompute the three cached fields from the
    children's cached fields. *)
Definition updateValues (p : AVLTreeNode) : AVLTreeNode :=
  match p with
  | nullptr => nullptr
  | Node l r v _ _ _ =>
      Node l r v (count_of l + count_of r + 1)
        (Z.max (height_of l) (height_of r) + 1)
        (sum_of l + sum_of r + v)
  end.

(** [balanceFactor()]: left height minus right height, null as 0. *)
Definition balanceFactor (p : AVLTreeNode) : Z :=
  height_of (left p) - height_of (right p).

(** [left_rotate()]: [R = right; right = right->left; R->left = this;
    this->updateValues(); R->updateValues(); return R].  [R->left] aliases
    [this], so [R] sees the updated [this]. *)
Definition left_rotate (this : AVLTreeNode) : option AVLTreeNode :=
  match this with
  | Node l (Node Rl Rr Rv Rc Rh Rs) v c h s =>
      let this' := updateValues (Node l Rl v c h s) in
      Some (updateValues (Node this' Rr Rv Rc Rh Rs))
  | _ => None
  end.

(** [right_rotate()]: the mirror image over the left child [L]. *)
Definition right_rotate (this : AVLTreeNode) : option AVLTreeNode :=
  match this with
  | Node (Node Ll Lr Lv Lc Lh Ls) r v c h s =>
      let this' := updateValues (Node Lr r v c h s) in
      Some (updateValues (Node Ll this' Lv Lc Lh Ls))
  | _ => None
  end.

(** ** The abstract tree *)

Fixpoint inorder (p : AVLTreeNode) : list Z :=
  match p with
  | nullptr => []
  | Node l r v _ _ _ => inorder l ++ v :: inorder r
  end.

Fixpoint height (p : AVLTreeNode) : Z :=
  match p with
  | nullptr => 0
  | Node l r _ _ _ _ => Z.max (height l) (height r) + 1
  end.

(** Every cached field agrees with the fields of the children. *)
Fixpoint wf (p : AVLTreeNode) : Prop :=
  match p with
  | nullptr => True
  | Node l r v c h s =>
      wf l ∧ wf r ∧ c = count_of l + count_of r + 1 ∧
      h = Z.max (height_of l) (height_of r) + 1 ∧ s = sum_of l + sum_of r + v
  end.

(** Search-tree order, ties allowed on both sides (rotations move equal
    values to the left). *)
Definition bst (p : AVLTreeNode) : Prop := sorted (inorder p).

#[export] Instance wf_dec p : Decision (wf p).
Proof. induction p; simpl; apply _. Defined.
#[export] Instance bst_dec p : Decision (bst p).
Proof. unfold bst. apply _. Defined.

(** A node whose cached fields are exact. *)
Definition node (l r : AVLTreeNode) (v : Z) : AVLTreeNode := updateValues (Node l r v 0 0 0).

(** The total rotations: the code's rotations where they succeed. *)
Definition rotl (p : AVLTreeNode) : AVLTreeNode := default p (left_rotate p).
Definition rotr (p : AVLTreeNode) : AVLTreeNode := default p (right_rotate p).

(** ** Cached fields *)

Lemma updateValues_node l r v c h s : updateValues (Node l r v c h s) = node l r v.
Proof. done. Qed.

Lemma inorder_updateValues p : inorder (updateValues p) = inorder p.
Proof. by destruct p. Qed.

Lemma inorder_node l r v : inorder (node l r v) = inorder l ++ v :: inorder r.
Proof. done. Qed.

Lemma height_nonneg p : 0 ≤ height p.
Proof. induction p; simpl; lia. Qed.

Lemma left_node l r v : left (node l r v) = l.
Proof. done. Qed.
Lemma right_node l r v : right (node l r v) = r.
Proof. done. Qed.

Lemma height_node l r v : height (node l r v) = Z.max (height l) (height r) + 1.
Proof. done. Qed.

Lemma wf_node l r v : wf l → wf r → wf (node l r v).
Proof. simpl. naive_solver. Qed.

(** A well-formed node is its own recomputation. *)
Lemma wf_Node_node l r v c h s : wf (Node l r v c h s) → Node l r v c h s = node l r v.
Proof. intros (_ & _ & -> & -> & ->). done. Qed.

Lemma wf_count p : wf p → count_of p = Z.of_nat (length (inorder p)).
Proof.
  induction p as [|l IHl r IHr v c h s]; simpl; [done|].
  intros (? & ? & -> & _). rewrite length_app. simpl. rewrite IHl, IHr by done. lia.
Qed.

Lemma wf_height p : wf p → height_of p = height p.
Proof.
  induction p as [|l IHl r IHr v c h s]; simpl; [done|].
  intros (? & ? & _ & -> & _). by rewrite IHl, IHr.
Qed.

Lemma wf_sum p : wf p → sum_of p = Σ (inorder p).
Proof.
  induction p as [|l IHl r IHr v c h s]; simpl; [done|].
  intros (? & ? & _ & _ & ->). rewrite sum_list_app, sum_list_cons, IHl, IHr by done. lia.
Qed.

Lemma wf_left p : wf p → wf (left p).
Proof. destruct p; simpl; tauto. Qed.
Lemma wf_right p : wf p → wf (right p).
Proof. destruct p; simpl; tauto. Qed.

#[export] Hint Resolve wf_node wf_left wf_right height_nonneg : avl.

Lemma balanceFactor_node l r v :
  wf l → wf r → balanceFactor (node l r v) = height l - height r.
Proof. intros. unfold balanceFactor. simpl. by rewrite !wf_height. Qed.

Lemma height_pos p : p ≠ nullptr → 1 ≤ height p.
Proof. destruct p; simpl; [done|]. intros _. pose proof (height_nonneg p1). lia. Qed.

(** ** Rotations *)

Lemma rotl_Node l Rl Rr Rv Rc Rh Rs v c h s :
  rotl (Node l (Node Rl Rr Rv Rc Rh Rs) v c h s) = node (node l Rl v) Rr Rv.
Proof. done. Qed.

Lemma rotr_Node Ll Lr Lv Lc Lh Ls r v c h s :
  rotr (Node (Node Ll Lr Lv Lc Lh Ls) r v c h s) = node Ll (node Lr r v) Lv.
Proof. done. Qed.

Lemma left_rotate_rotl p q : left_rotate p = Some q → rotl p = q.
Proof. unfold rotl. by intros ->. Qed.

Lemma right_rotate_rotr p q : right_rotate p = Some q → rotr p = q.
Proof. unfold rotr. by intros ->. Qed.

Lemma rotl_inorder p : inorder (rotl p) = inorder p.
Proof. destruct p as [|l [|Rl Rr] v c h s]; simpl; try done. by rewrite <-!app_assoc. Qed.

Lemma rotr_inorder p : inorder (rotr p) = inorder p.
Proof. destruct p as [|[|Ll Lr] r v c h s]; simpl; try done. by rewrite <-!app_assoc. Qed.

Lemma rotl_wf l R v c h s :
  wf l → wf R → R ≠ nullptr → wf (rotl (Node l R v c h s)).
Proof. destruct R; [done|]. intros ? (? & ? & _) _. rewrite rotl_Node. auto with avl. Qed.

Lemma rotr_wf L r v c h s :
  wf L → wf r → L ≠ nullptr → wf (rotr (Node L r v c h s)).
Proof. destruct L; [done|]. intros (? & ? & _) ? _. rewrite rotr_Node. auto with avl. Qed.

#[export] Hint Resolve rotl_wf rotr_wf : avl.
#[export] Hint Rewrite rotl_inorder rotr_inorder inorder_updateValues inorder_node : avl_rw.

(** ** Search-tree order *)

Lemma bst_Node l r v c h s :
  bst (Node l r v c h s) ↔ bst l ∧ bst r ∧ inorder l ≤* v ∧ v *≤ inorder r.
Proof. apply sorted_app_cons. Qed.

Lemma bst_inorder p q : inorder p = inorder q → bst p → bst q.
Proof. unfold bst. by intros ->. Qed.

(** ** Correctness of the rotations *)

(** C16: [left_rotate] on a node whose right child is not null and whose
    subtrees have exact cached fields returns the promoted right child with
    every cached field exact (the old node's fields included, stale as they
    may be) and the in-order sequence unchanged. *)
Theorem left_rotate_correct l R v c h s :
  wf l → wf R → R ≠ nullptr →
  ∃ q, left_rotate (Node l R v c h s) = Some q ∧ wf q ∧ inorder q = inorder (Node l R v c h s).
Proof.
  destruct R as [|Rl Rr Rv Rc Rh Rs]; [done|]. intros Hl (HRl & HRr & _) _.
  eexists. split_and!; [reflexivity|apply (wf_node (node l Rl v)); auto with avl|].
  simpl. by rewrite <-!app_assoc.
Qed.

Lemma left_rotate_correct_witness :
  wf nullptr ∧ wf (Node nullptr nullptr 3 1 1 3) ∧ Node nullptr nullptr 3 1 1 3 ≠ nullptr ∧
  ∃ q, left_rotate (Node nullptr (Node nullptr nullptr 3 1 1 3) 2 2 2 0) = Some q ∧ wf q ∧
    inorder q = inorder (Node nullptr (Node nullptr nullptr 3 1 1 3) 2 2 2 0).
Proof.
  split_and!; [decide_compute|decide_compute|done|].
  apply left_rotate_correct; [decide_compute|decide_compute|done].
Defined.

(** C17: the mirror image for [right_rotate] and a non-null left child. *)
Theorem right_rotate_correct L r v c h s :
  wf L → wf r → L ≠ nullptr →
  ∃ q, right_rotate (Node L r v c h s) = Some q ∧ wf q ∧ inorder q = inorder (Node L r v c h s).
Proof.
  destruct L as [|Ll Lr Lv Lc Lh Ls]; [done|]. intros (HLl & HLr & _) Hr _.
  eexists. split_and!; [reflexivity|apply (wf_node Ll (node Lr r v)); auto with avl|].
  simpl. by rewrite <-!app_assoc.
Qed.

Lemma right_rotate_correct_witness :
  wf (Node nullptr nullptr 1 1 1 1) ∧ wf nullptr ∧ Node nullptr nullptr 1 1 1 1 ≠ nullptr ∧
  ∃ q, right_rotate (Node (Node nullptr nullptr 1 1 1 1) nullptr 2 2 2 0) = Some q ∧ wf q ∧
    inorder q = inorder (Node (Node nullptr nullptr 1 1 1 1) nullptr 2 2 2 0).
Proof.
  split_and!; [decide_compute|decide_compute|done|].
  apply right_rotate_correct; [decide_compute|decide_compute|done].
Defined.

(** C24: the constructor [AVLTreeNode(value)] sets [sum = T()], not
    [value]: a fresh node's cached sum is stale for every non-zero value,
    until [updateValues] recomputes it. *)
Theorem new_node_not_wf v : v ≠ 0 → ¬ wf (new_node v).
Proof. intros Hv (_ & _ & _ & _ & Hs). simpl in Hs. lia. Qed.

Lemma new_node_not_wf_witness : 5 ≠ 0 ∧ ¬ wf (new_node 5).
Proof. split; [done|apply new_node_not_wf; done]. Defined.

End AVLNode.
