(* ===== verification/Slot.v ===== *)
(** * Slot: owning slots [AVLTreeNode<T>**]

    [insert], [erase] and [balance] (src/onefile.cpp, lines 145-259) walk
    the tree through pointers to owning slots: [&root], [&(n->left)],
    [&(n->right)].  A slot is modelled by its address from the root, the
    list of child links followed from [&root]: [&root] is [[]], and the
    slot [&(n->left)] of the node [n] held by slot [a] is [a ++ [ToLeft]].  Reading [*a] is [get a], writing
    [*a = x] is [put a x]; both fail ([None]) when a node on the way is null,
    i.e. when the slot would lie inside a node that does not exist.

    Ownership is a strict tree (no node has two parents), so the node held
    by a slot is determined by the slot's address: the address model
    identifies two slots exactly when the code's pointers are equal. *)

From Stdlib Require Import ZArith Lia.
From stdpp Require Import base list numbers.
From S2P Require Import Prelude.
From S2P Require Import Node.
Import AVLNode.

Open Scope Z_scope.

Module Slot.

(** Which child field of a node a slot is. *)
Inductive dir := ToLeft | ToRight.

#[export] Instance dir_eq_dec : EqDecision dir.
Proof. solve_decision. Defined.

Abbreviation slot := (list dir).

Definition child (d : dir) (p : AVLTreeNode) : AVLTreeNode :=
  match d with ToLeft => left p | ToRight => right p end.

(** [n->left = x] / [n->right = x] on a node. *)
Definition set_child (d : dir) (x : AVLTreeNode) (p : AVLTreeNode) : AVLTreeNode :=
  match p with
  | nullptr => nullptr
  | Node l r v c h s =>
      match d with ToLeft => Node x r v c h s | ToRight => Node l x v c h s end
  end.

(** [*a]. *)
Fixpoint get (a : slot) (root : AVLTreeNode) : option AVLTreeNode :=
  match a with
  | [] => Some root
  | d :: a' => n ← deref root; get a' (child d n)
  end.

(** [*a = x]. *)
Fixpoint put (a : slot) (x : AVLTreeNode) (root : AVLTreeNode) : option AVLTreeNode :=
  match a with
  | [] => Some x
  | d :: a' => n ← deref root; c ← put a' x (child d n); Some (set_child d c n)
  end.

(** The slots [a], [a ++ [d1]], [a ++ [d1; d2]], ...: the path that a
    descent from [a] following [ds] records. *)
Fixpoint prefixes_from (a : slot) (ds : list dir) : list slot :=
  a :: match ds with [] => [] | d :: ds' => prefixes_from (a ++ [d]) ds' end.

(** ** Lemmas *)

Lemma get_app a b root : get (a ++ b) root = n ← get a root; get b n.
Proof.
  revert root. induction a as [|d a IH]; intros root; simpl; [by destruct (get b root)|].
  destruct root; simpl; [done|]. apply IH.
Qed.

Lemma put_app a b x root :
  put (a ++ b) x root = n ← get a root; n' ← put b x n; put a n' root.
Proof.
  revert root. induction a as [|d a IH]; intros root; simpl.
  - by destruct (put b x root).
  - destruct root as [|l r v c h s]; simpl; [done|]. rewrite IH.
    destruct (get a (child d _)) as [n|]; simpl; [|done].
    by destruct (put b x n).
Qed.

Lemma get_snoc a d root :
  get (a ++ [d]) root = n ← get a root; n' ← deref n; Some (child d n').
Proof. rewrite get_app. destruct (get a root); simpl; [|done]. by destruct a0. Qed.

Lemma put_snoc a d x root :
  put (a ++ [d]) x root = n ← get a root; n' ← deref n; put a (set_child d x n') root.
Proof.
  rewrite put_app. destruct (get a root) as [n|]; simpl; [|done]. by destruct n.
Qed.

(** Writing then reading the same slot. *)
Lemma get_put a x root root' : put a x root = Some root' → get a root' = Some x.
Proof.
  revert root root'. induction a as [|d a IH]; intros root root'; simpl; [congruence|].
  destruct root as [|l r v c h s]; simpl; [done|].
  destruct (put a x _) as [c'|] eqn:E; simpl; [|done]. intros [= <-].
  destruct d; simpl; eauto.
Qed.

(** A slot that can be read can be written. *)
Lemma put_is_Some a x root : is_Some (get a root) → is_Some (put a x root).
Proof.
  revert root. induction a as [|d a IH]; intros root; simpl; [done|].
  destruct root; simpl; [by intros []|]. intros H.
  destruct (IH _ H) as [c' ->]. by eexists.
Qed.

(** A second write to a slot overrides the first. *)
Lemma put_put a x y root root' : put a x root = Some root' → put a y root' = put a y root.
Proof.
  revert root root'. induction a as [|d a IH]; intros root root'; simpl; [done|].
  destruct root as [|l r v c h s]; simpl; [done|].
  destruct (put a x _) as [c'|] eqn:E; simpl; [|done]. intros [= <-].
  destruct d; simpl; by erewrite IH.
Qed.

(** Writing back what a slot holds changes nothing. *)
Lemma put_get a n root : get a root = Some n → put a n root = Some root.
Proof.
  revert root. induction a as [|d a IH]; intros root; simpl; [congruence|].
  destruct root as [|l r v c h s]; simpl; [done|]. intros H.
  rewrite (IH _ H). by destruct d.
Qed.

Lemma child_set_child d x p : p ≠ nullptr → child d (set_child d x p) = x.
Proof. destruct p, d; done. Qed.

Lemma set_child_child d p : set_child d (child d p) p = p.
Proof. destruct p, d; done. Qed.

Lemma set_child_set_child d x y p : set_child d x (set_child d y p) = set_child d x p.
Proof. destruct p, d; done. Qed.

Lemma prefixes_from_snoc a d ds :
  prefixes_from a (d :: ds) = a :: prefixes_from (a ++ [d]) ds.
Proof. done. Qed.

Lemma prefixes_from_app here a d b :
  prefixes_from here (a ++ d :: b) = prefixes_from here a ++ prefixes_from (here ++ a ++ [d]) b.
Proof.
  revert here. induction a as [|x a IH]; intros here; simpl; [done|].
  rewrite IH. by rewrite <-!app_assoc.
Qed.

Lemma removelast_cons_prefixes_from s here a :
  removelast (s :: prefixes_from here a) = s :: removelast (prefixes_from here a).
Proof. by destruct a. Qed.

Lemma removelast_prefixes_from here a d :
  removelast (prefixes_from here (a ++ [d])) = prefixes_from here a.
Proof. rewrite prefixes_from_app. simpl. by rewrite removelast_last. Qed.

Lemma last_prefixes_from here a : list.last (prefixes_from here a) = Some (here ++ a).
Proof.
  revert here. induction a as [|d a IH]; intros here; simpl; [by rewrite app_nil_r|].
  rewrite last_cons, IH. simpl. by rewrite <-app_assoc.
Qed.

Lemma length_prefixes_from here a : length (prefixes_from here a) = S (length a).
Proof. revert here. induction a; intros; simpl; auto. Qed.

(** Replacing the subtree a slot holds replaces its run in the in-order
    sequence. *)
Lemma put_inorder a n n' root root' :
  get a root = Some n → put a n' root = Some root' →
  ∃ pre post, inorder root = pre ++ inorder n ++ post ∧ inorder root' = pre ++ inorder n' ++ post.
Proof.
  revert root root'. induction a as [|d a IH]; intros root root'; simpl.
  { intros [= ->] [= ->]. exists [], []. by rewrite !app_nil_r. }
  destruct root as [|l r v c h s]; simpl; [done|]. intros Hg Hp.
  destruct (put a n' (child d _)) as [c'|] eqn:E; simpl in Hp; [|done]. injection Hp as <-.
  destruct (IH _ _ Hg E) as (pre & post & H1 & H2).
  destruct d; simpl in *.
  - exists pre, (post ++ v :: inorder r). rewrite H1, H2. by rewrite <-!app_assoc.
  - exists (inorder l ++ [v] ++ pre), post. rewrite H1, H2. by rewrite <-!app_assoc.
Qed.

Lemma get_wf a root n : wf root → get a root = Some n → wf n.
Proof.
  revert root. induction a as [|d a IH]; intros root; simpl; [by intros ? [= <-]|].
  destruct root as [|l r v c h s]; simpl; [done|]. intros (? & ? & _).
  destruct d; simpl; eauto.
Qed.

End Slot.
