(* ===== verification/Balance.v ===== *)
(** * Balance: [AVLTree<T>::balance]

    Models [balance] (src/onefile.cpp, lines 236-259): the recorded path of
    slots is reversed and, for each slot from the deepest up, the node it
    holds is recomputed ([updateValues]) and rotated by one of the four
    cases of the code, and the result is written back into the slot.

    [balance_node] is the loop body on the node a slot holds,
    [balance_step] the read-modify-write of one slot, [balance] the loop.
    [rebalance] is the loop body as a total function of the subtree, and
    [rebalance_along ds] rebalances every node on the descent [ds] from the
    bottom up.  [balance_prefixes] shows that the loop over the recorded
    slots computes [rebalance_along]: the pointer-walking loop never
    dereferences null and refines the recursive definition. *)

From Stdlib Require Import ZArith Lia.
From stdpp Require Import base list numbers.
From S2P Require Import Prelude.
From S2P Require Import Node.
From S2P Require Import Slot.
Import AVLNode Slot.

Open Scope Z_scope.
Open Scope avl_scope.

Module Balance.

(** The loop body, on the node held by the current slot (lines 241-257).
    The conjunctions of the code are short-circuit: the child's balance
    factor is read only when the node's factor is out of range. *)
Definition balance_node (p : AVLTreeNode) : option AVLTreeNode :=
  n ← deref p;
  let n := updateValues n in
  if balanceFactor n >=? 2 then
    l ← deref (left n);
    if balanceFactor l >=? 1 then right_rotate n                (* left - left *)
    else l' ← left_rotate l; right_rotate (set_child ToLeft l' n)  (* left - right *)
  else if balanceFactor n <=? -2 then
    r ← deref (right n);
    if balanceFactor r <=? -1 then left_rotate n                (* right - right *)
    else r' ← right_rotate r; left_rotate (set_child ToRight r' n) (* right - left *)
  else Some n.

(** One iteration: read the node held by the slot [indirect], run the loop
    body, write the result back into the slot. *)
Definition balance_step (root : AVLTreeNode) (indirect : slot) : option AVLTreeNode :=
  n ← get indirect root; n' ← balance_node n; put indirect n' root.

Fixpoint balance_loop (path : list slot) (root : AVLTreeNode) : option AVLTreeNode :=
  match path with
  | [] => Some root
  | indirect :: path' => root' ← balance_step root indirect; balance_loop path' root'
  end.

(** [std::reverse(path); for (auto indirect : path) ...]. *)
Definition balance (path : list slot) (root : AVLTreeNode) : option AVLTreeNode :=
  balance_loop (reverse path) root.

(** ** The recursive specification *)

Definition rebalance (p : AVLTreeNode) : AVLTreeNode :=
  match p with
  | nullptr => nullptr
  | Node l r v _ _ _ =>
      if decide (2 ≤ height l - height r) then
        if decide (1 ≤ height (left l) - height (right l)) then rotr (node l r v)
        else rotr (node (rotl l) r v)
      else if decide (height l - height r ≤ -2) then
        if decide (height (left r) - height (right r) ≤ -1) then rotl (node l r v)
        else rotl (node l (rotr r) v)
      else node l r v
  end.

#[global] Arguments rebalance : simpl never.

Fixpoint rebalance_along (ds : list dir) (p : AVLTreeNode) : AVLTreeNode :=
  match ds with
  | [] => rebalance p
  | d :: ds' => rebalance (set_child d (rebalance_along ds' (child d p)) p)
  end.

(** Replace the subtree at the end of the descent [ds] by [f] of it and
    rebalance every node above it, bottom-up. *)
Fixpoint rebalance_above (ds : list dir) (f : AVLTreeNode → AVLTreeNode) (p : AVLTreeNode)
    : AVLTreeNode :=
  match ds with
  | [] => f p
  | d :: ds' => rebalance (set_child d (rebalance_above ds' f (child d p)) p)
  end.

(** The nodes on the descent [ds] exist and everything off it is [wf]. *)
Fixpoint path_ok (ds : list dir) (p : AVLTreeNode) : Prop :=
  match p with
  | nullptr => False
  | Node l r _ _ _ _ =>
      match ds with
      | [] => wf l ∧ wf r
      | ToLeft :: ds' => path_ok ds' l ∧ wf r
      | ToRight :: ds' => wf l ∧ path_ok ds' r
      end
  end.

(** ** Lemmas *)

Lemma balanceFactor_wf p : wf p → balanceFactor p = height (left p) - height (right p).
Proof. intros. unfold balanceFactor. rewrite !wf_height; auto with avl. Qed.

Lemma rotl_wf' p : wf p → wf (rotl p).
Proof.
  destruct p as [|l [|] v c h s]; intros Hw; [done|exact Hw|].
  destruct Hw as (? & ? & _). by apply rotl_wf.
Qed.

Lemma rotr_wf' p : wf p → wf (rotr p).
Proof.
  destruct p as [|[|] r v c h s]; intros Hw; [done|exact Hw|].
  destruct Hw as (? & ? & _). by apply rotr_wf.
Qed.

#[export] Hint Resolve rotl_wf' rotr_wf' : avl.

Lemma rotl_fields l R v c h s : R ≠ nullptr → rotl (Node l R v c h s) = rotl (node l R v).
Proof. by destruct R. Qed.

Lemma rotr_fields L r v c h s : L ≠ nullptr → rotr (Node L r v c h s) = rotr (node L r v).
Proof. by destruct L. Qed.

Lemma rotl_ne p : p ≠ nullptr → rotl p ≠ nullptr.
Proof. by destruct p as [|? []]. Qed.

Lemma rotr_ne p : p ≠ nullptr → rotr p ≠ nullptr.
Proof. by destruct p as [|[] ?]. Qed.

Lemma left_rotate_Some p : right p ≠ nullptr → left_rotate p = Some (rotl p).
Proof. by destruct p as [|? []]. Qed.

Lemma right_rotate_Some p : left p ≠ nullptr → right_rotate p = Some (rotr p).
Proof. by destruct p as [|[] ?]. Qed.

(** A node with a child of height at least one has that child. *)
Lemma ne_of_height p : 1 ≤ height p → p ≠ nullptr.
Proof. by destruct p. Qed.

Lemma height_children p :
  p ≠ nullptr → height p = Z.max (height (left p)) (height (right p)) + 1.
Proof. by destruct p. Qed.

(** The loop body computes [rebalance] when the children are [wf]. *)
Lemma balance_node_spec l r v c h s :
  wf l → wf r → balance_node (Node l r v c h s) = Some (rebalance (Node l r v c h s)).
Proof.
  intros Hl Hr. unfold balance_node, rebalance. simpl deref. cbn [mbind option_bind].
  rewrite updateValues_node, balanceFactor_node by done.
  pose proof (height_nonneg (left l)). pose proof (height_nonneg (right l)).
  pose proof (height_nonneg (left r)). pose proof (height_nonneg (right r)).
  pose proof (height_nonneg l). pose proof (height_nonneg r).
  destruct (decide (2 ≤ height l - height r)).
  { assert (l ≠ nullptr) as Hl0 by (apply ne_of_height; lia).
    rewrite (Z_geb_true _ 2) by lia.
    rewrite left_node. destruct l as [|ll lr lv lc lh ls]; [done|]; cbn [deref mbind option_bind].
    rewrite balanceFactor_wf by done.
    destruct (decide (1 ≤ _)).
    - rewrite (Z_geb_true _ 1) by lia. by apply right_rotate_Some.
    - rewrite (Z_geb_false _ 1) by lia.
      assert (lr ≠ nullptr).
      { apply ne_of_height. pose proof (height_children (Node ll lr lv lc lh ls)).
        simpl in *; lia. }
      rewrite left_rotate_Some by done. cbn [mbind option_bind].
      rewrite right_rotate_Some by (simpl; apply rotl_ne; done).
      f_equal. apply rotr_fields, rotl_ne; done. }
  rewrite (Z_geb_false _ 2) by lia.
  destruct (decide (height l - height r ≤ -2)).
  { assert (r ≠ nullptr) as Hr0 by (apply ne_of_height; lia).
    rewrite (Z_leb_true _ (-2)) by lia.
    rewrite right_node. destruct r as [|rl rr rv rc rh rs]; [done|]; cbn [deref mbind option_bind].
    rewrite balanceFactor_wf by done.
    destruct (decide (_ ≤ -1)).
    - rewrite (Z_leb_true _ (-1)) by lia. by apply left_rotate_Some.
    - rewrite (Z_leb_false _ (-1)) by lia.
      assert (rl ≠ nullptr).
      { apply ne_of_height. pose proof (height_children (Node rl rr rv rc rh rs)).
        simpl in *; lia. }
      rewrite right_rotate_Some by done. cbn [mbind option_bind].
      rewrite left_rotate_Some by (simpl; apply rotr_ne; done).
      f_equal. apply rotl_fields, rotr_ne; done. }
  rewrite (Z_leb_false _ (-2)) by lia. done.
Qed.

Lemma rebalance_inorder p : inorder (rebalance p) = inorder p.
Proof.
  destruct p as [|l r v c h s]; [done|]. unfold rebalance.
  repeat case_decide; rewrite ?rotl_inorder, ?rotr_inorder; simpl;
    rewrite ?rotl_inorder, ?rotr_inorder; done.
Qed.

Lemma rebalance_wf p : wf (left p) → wf (right p) → wf (rebalance p).
Proof.
  destruct p as [|l r v c h s]; [done|]. simpl. intros. unfold rebalance.
  repeat case_decide; auto with avl.
Qed.

#[export] Hint Resolve rebalance_wf : avl.

Lemma inorder_set_child d x p :
  inorder x = inorder (child d p) → inorder (set_child d x p) = inorder p.
Proof. destruct p, d; simpl; intros H; rewrite ?H; done. Qed.

Lemma rebalance_along_inorder ds p : inorder (rebalance_along ds p) = inorder p.
Proof.
  revert p. induction ds as [|d ds IH]; intros p; simpl; rewrite rebalance_inorder; [done|].
  by apply inorder_set_child.
Qed.

(** [rebalance] reads only the children and the value. *)
Lemma rebalance_fields l r v c h s c' h' s' :
  rebalance (Node l r v c h s) = rebalance (Node l r v c' h' s').
Proof. reflexivity. Qed.

(** Writing [Y] at [a] and rebalancing along [a ++ b] rebalances along [b]
    inside [Y], then every node above [a]. *)
Lemma rebalance_along_put a b Y p p1 :
  put a Y p = Some p1 → rebalance_along (a ++ b) p1 = rebalance_above a (λ _, rebalance_along b Y) p.
Proof.
  revert p p1. induction a as [|d a IH]; intros p p1; [by intros [= <-]|].
  destruct p as [|l r v c h s]; [done|]. cbn [put deref mbind option_bind].
  destruct (put a Y (child d _)) as [c'|] eqn:E; [|done]. intros [= <-].
  destruct d; cbn [app rebalance_along rebalance_above child set_child left right];
    by rewrite (IH _ _ E).
Qed.

(** Writing [X] below the last slot of [a] and rebalancing along [a]. *)
Lemma rebalance_along_put_last a d X p p1 :
  put (a ++ [d]) X p = Some p1 → rebalance_along a p1 = rebalance_above (a ++ [d]) (λ _, X) p.
Proof.
  revert p p1. induction a as [|d' a IH]; intros p p1;
    destruct p as [|l r v c h s]; cbn [app put deref mbind option_bind]; try done.
  - intros [= <-]. by destruct d.
  - destruct (put (a ++ [d]) X (child d' _)) as [c'|] eqn:E; [|done]. intros [= <-].
    destruct d'; cbn [rebalance_along rebalance_above child set_child left right];
      by rewrite (IH _ _ E).
Qed.

Lemma rebalance_above_ext a f g p n :
  get a p = Some n → f n = g n → rebalance_above a f p = rebalance_above a g p.
Proof.
  revert p. induction a as [|d a IH]; intros p; [by intros [= ->]|].
  destruct p; cbn [get deref mbind option_bind rebalance_above]; [done|].
  intros Hg Hfg. by rewrite (IH _ Hg Hfg).
Qed.

Lemma rebalance_along_wf ds p : path_ok ds p → wf (rebalance_along ds p).
Proof.
  revert p. induction ds as [|d ds IH]; intros [|l r v c h s]; simpl; try done.
  - intros []. by apply rebalance_wf.
  - destruct d; simpl; intros []; apply rebalance_wf; simpl; auto.
Qed.

#[export] Hint Resolve rebalance_along_wf : avl.

Lemma balance_loop_app p1 p2 root :
  balance_loop (p1 ++ p2) root = root' ← balance_loop p1 root; balance_loop p2 root'.
Proof.
  revert root. induction p1 as [|a p1 IH]; intros root; simpl; [done|].
  destruct (balance_step root a); simpl; [apply IH|done].
Qed.

Lemma path_ok_ne ds p : path_ok ds p → p ≠ nullptr.
Proof. intros H ->. by destruct ds as [|[] ?]. Qed.

(** The loop over the slots recorded by a descent from [here] along [ds]
    rebalances the nodes of the descent, deepest first. *)
Lemma balance_prefixes ds here root n :
  get here root = Some n → path_ok ds n →
  balance_loop (reverse (prefixes_from here ds)) root = put here (rebalance_along ds n) root.
Proof.
  revert here root n. induction ds as [|d ds IH]; intros here root n Hget Hok.
  - simpl. unfold balance_step. rewrite Hget. simpl.
    destruct n as [|l r v c h s]; [done|]. destruct Hok.
    rewrite balance_node_spec by done. simpl.
    destruct (put here _ root); simpl; done.
  - rewrite prefixes_from_snoc, reverse_cons, balance_loop_app.
    assert (n ≠ nullptr) as Hn by (by eapply path_ok_ne).
    assert (path_ok ds (child d n) ∧ wf (child (if d is ToLeft then ToRight else ToLeft) n))
      as [Hok' Hoff] by (destruct n, d; simpl in *; tauto).
    rewrite (IH (here ++ [d]) root (child d n)).
    2: { rewrite get_snoc, Hget. by destruct n. }
    2: done.
    rewrite put_snoc, Hget. destruct n as [|l r v c h s]; [done|]. cbn [deref mbind option_bind].
    destruct (put_is_Some here (set_child d (rebalance_along ds (child d (Node l r v c h s)))
      (Node l r v c h s)) root) as [root1 Hroot1]; [by eexists|].
    rewrite Hroot1. simpl. unfold balance_step.
    rewrite (get_put _ _ _ _ Hroot1). simpl.
    assert (wf (rebalance_along ds (child d (Node l r v c h s)))) by auto with avl.
    destruct d; cbn [set_child child left right] in *; simpl in Hoff;
      rewrite balance_node_spec by done; cbn [mbind option_bind];
      erewrite put_put by done; apply bind_ret_r.
Qed.

(** [balance] over the slots from the root along [ds]. *)
Lemma balance_from_root ds root :
  path_ok ds root → balance (prefixes_from [] ds) root = Some (rebalance_along ds root).
Proof. intros. unfold balance. by rewrite (balance_prefixes ds [] root root). Qed.

(** Writing a subtree whose children are [wf] into a [wf] tree gives a
    tree whose path to the written slot is [path_ok]. *)
Lemma path_ok_put a b Y root root' :
  wf root → put a Y root = Some root' → path_ok b Y → path_ok (a ++ b) root'.
Proof.
  revert root root'. induction a as [|d a IH]; intros root root'; simpl; [by intros _ [= <-]|].
  destruct root as [|l r v c h s]; simpl; [done|]. intros (? & ? & _) Hp Hok.
  destruct (put a Y (child d _)) as [c'|] eqn:E; simpl in Hp; [|done]. injection Hp as <-.
  destruct d; simpl in *; eauto.
Qed.

Lemma path_ok_nil p : p ≠ nullptr → wf (left p) → wf (right p) → path_ok [] p.
Proof. by destruct p. Qed.

#[export] Hint Resolve path_ok_nil : avl.

(** ** Correctness of [balance] *)

(** C9: run over the slots of a descent from the root whose nodes exist and
    whose other subtrees have exact cached fields, [balance] never faults,
    leaves every cached field exact, keeps the in-order sequence of
    values, and computes the bottom-up rebalancing [rebalance_along]. *)
Theorem balance_correct ds root :
  path_ok ds root → ∃ root', balance (prefixes_from [] ds) root = Some root' ∧
    root' = rebalance_along ds root ∧ wf root' ∧ inorder root' = inorder root.
Proof.
  intros Hok. rewrite balance_from_root by done. eexists. split_and!; [done|done| |].
  - by apply rebalance_along_wf.
  - apply rebalance_along_inorder.
Qed.

(** The root [2] with stale fields over a left child [1]: the path is the
    root and its left slot. *)
Lemma balance_correct_witness :
  path_ok [ToLeft] (Node (Node nullptr nullptr 1 1 1 1) nullptr 2 0 0 0) ∧
  ∃ root', balance (prefixes_from [] [ToLeft]) (Node (Node nullptr nullptr 1 1 1 1) nullptr 2 0 0 0)
      = Some root' ∧
    root' = rebalance_along [ToLeft] (Node (Node nullptr nullptr 1 1 1 1) nullptr 2 0 0 0) ∧
    wf root' ∧ inorder root' = inorder (Node (Node nullptr nullptr 1 1 1 1) nullptr 2 0 0 0).
Proof.
  assert (path_ok [ToLeft] (Node (Node nullptr nullptr 1 1 1 1) nullptr 2 0 0 0)) as H
    by (cbn; tauto).
  split; [exact H|apply (balance_correct _ _ H)].
Defined.

End Balance.
