(* ===== verification/Tree.v ===== *)
(** * Tree: the state of [class AVLTree<T>] and its bookkeeping operations

    Models the members [_size] and [root] (src/onefile.cpp, lines 79-108),
    the constructor (lines 110-114), [clear] (lines 121-143), [empty] and
    [size] (lines 261-269).  [clear] pops nodes from an explicit stack and
    decrements [_size] once per node; the stack is a list whose head is
    [stack.back()].  The loop is not structural, so [clear_loop] runs on
    fuel, and [clear] supplies one more unit than the number of nodes:
    [clear_loop_nodes] shows that this fuel always suffices.

    The invariant [tree_inv] of a tree between public operations: every
    cached field is exact ([wf]), the search-tree order holds ([bst]) and
    [_size] equals the root's [count]. *)

From Stdlib Require Import ZArith Lia.
From stdpp Require Import base list numbers.
From S2P Require Import Prelude.
From S2P Require Import Node.
Import AVLNode.

Open Scope Z_scope.
Open Scope avl_scope.

Module Tree.

Record AVLTree : Type := mkAVLTree { _size : Z; root : AVLTreeNode }.

(** [AVLTree()]. *)
Definition AVLTree_new : AVLTree := {| _size := 0; root := nullptr |}.

(** [empty()] and [size()]. *)
Definition empty (t : AVLTree) : bool := _size t =? 0.
Definition size (t : AVLTree) : Z := _size t.

(** The loop of [clear]: pop a node, push its non-null children (left
    first, so the right child is popped next), decrement [_size]. *)
Fixpoint clear_loop (fuel : nat) (stack : list AVLTreeNode) (size : Z) : option Z :=
  match fuel with
  | O => None
  | S fuel' =>
      match stack with
      | [] => Some size
      | p :: stack' =>
          node ← deref p;
          let stack1 := if decide (left node = nullptr) then stack' else left node :: stack' in
          let stack2 := if decide (right node = nullptr) then stack1 else right node :: stack1 in
          clear_loop fuel' stack2 (size - 1)
      end
  end.

(** Number of nodes in the subtrees held by a stack. *)
Definition stack_nodes (stack : list AVLTreeNode) : nat :=
  sum_list_with (λ p, length (inorder p)) stack.

(** [clear()]: push the root if it is not null, run the loop, reset [root]. *)
Definition clear (t : AVLTree) : option AVLTree :=
  let stack := if decide (root t = nullptr) then [] else [root t] in
  size' ← clear_loop (S (stack_nodes stack)) stack (_size t);
  Some {| _size := size'; root := nullptr |}.

(** The invariant between public operations. *)
Definition tree_inv (t : AVLTree) : Prop :=
  wf (root t) ∧ bst (root t) ∧ _size t = count_of (root t).

#[export] Instance tree_inv_dec t : Decision (tree_inv t).
Proof. unfold tree_inv. apply _. Defined.

(** The multiset of values a tree holds. *)
Definition elements (t : AVLTree) : list Z := inorder (root t).

(** A three-node tree holding 1, 2, 3, as [insert] builds it, on which the
    theorems are instantiated. *)
Definition example_tree : AVLTree :=
  {| _size := 3;
     root := Node (Node nullptr nullptr 1 1 1 1) (Node nullptr nullptr 3 1 1 3) 2 3 2 6 |}.

(** ** Lemmas *)

Lemma stack_nodes_cons p stack :
  stack_nodes (p :: stack) = (length (inorder p) + stack_nodes stack)%nat.
Proof. done. Qed.

Lemma length_inorder_Node l r v c h s :
  length (inorder (Node l r v c h s)) = S (length (inorder l) + length (inorder r)).
Proof. simpl. rewrite length_app. simpl. lia. Qed.

(** [clear_loop] terminates on any fuel above the node count, after
    decrementing [size] once per node. *)
Lemma clear_loop_nodes fuel stack size :
  Forall (λ p, p ≠ nullptr) stack → (stack_nodes stack < fuel)%nat →
  clear_loop fuel stack size = Some (size - Z.of_nat (stack_nodes stack)).
Proof.
  revert stack size. induction fuel as [|fuel IH]; intros stack size Hne Hfuel; [lia|].
  destruct stack as [|p stack]; [simpl; f_equal; lia|]. cbn [clear_loop].
  inversion_clear Hne as [|? ? Hp Hne'].
  destruct p as [|l r v c h s]; [done|]. cbn [deref mbind option_bind left right].
  rewrite stack_nodes_cons, length_inorder_Node in Hfuel |- *.
  repeat case_decide; subst;
    (rewrite IH; [| repeat constructor; done | rewrite ?stack_nodes_cons; simpl in *; lia]);
    rewrite ?stack_nodes_cons; simpl; f_equal; lia.
Qed.

(** The stack [clear] starts from holds the whole tree. *)
Lemma clear_stack_nodes p :
  Forall (λ q, q ≠ nullptr) (if decide (p = nullptr) then [] else [p]) ∧
  stack_nodes (if decide (p = nullptr) then [] else [p]) = length (inorder p).
Proof. case_decide; subst; [done|]. split; [by constructor|]. simpl. lia. Qed.

(** C15: on a tree satisfying the invariant, [clear] terminates with [_size]
    decremented to [0] and [root] reset to [nullptr]: the tree is again
    the freshly constructed one. *)
Theorem clear_correct t : tree_inv t → clear t = Some AVLTree_new.
Proof.
  intros (Hw & _ & Hs). unfold clear. destruct (clear_stack_nodes (root t)) as [Hne Hn].
  rewrite clear_loop_nodes by (done || lia). simpl. rewrite Hn, Hs, wf_count by done.
  unfold AVLTree_new. do 2 f_equal. lia.
Qed.

Lemma clear_correct_witness : tree_inv example_tree ∧ clear example_tree = Some AVLTree_new.
Proof. split; [decide_compute|apply clear_correct; decide_compute]. Defined.

End Tree.
