(* ===== verification/Insert.v ===== *)
(** * Insert: [AVLTree<T>::insert]

    Models [insert] (src/onefile.cpp, lines 145-164).  [insert_descent] is
    the [while] loop: it records every visited slot and moves to the left
    slot when the node's value is greater than the inserted one, to the
    right slot otherwise (ties go right).  The new node is written into
    the empty slot reached, that slot is recorded too, [balance] runs over
    the path and [_size] is incremented.

    [ins] is the recursive insertion the loop refines ([insert_root_spec]):
    descend as the code does, then rebalance each node on the way back.
    The theorems show that an insertion never faults, keeps every cached
    field exact, and adds exactly one occurrence of the value to the
    sorted multiset of elements. *)

From Stdlib Require Import ZArith Lia.
From stdpp Require Import base list numbers.
From S2P Require Import Prelude.
From S2P Require Import Node.
From S2P Require Import Slot.
From S2P Require Import Balance.
From S2P Require Import Tree.
Import AVLNode Slot Balance Tree.

Open Scope Z_scope.
Open Scope avl_scope.

Module Insert.

(** The descent (lines 150-157); [cur] is the node held by [indirect]. *)
Fixpoint insert_descent (cur : AVLTreeNode) (value : Z) (indirect : slot)
    (path : list slot) : list slot * slot :=
  match cur with
  | nullptr => (path, indirect)
  | Node l r x _ _ _ =>
      if x >? value then insert_descent l value (indirect ++ [ToLeft]) (path ++ [indirect])
      else insert_descent r value (indirect ++ [ToRight]) (path ++ [indirect])
  end.

(** Lines 147-162 on the root: descend, attach, record, balance. *)
Definition insert_root (value : Z) (root : AVLTreeNode) : option AVLTreeNode :=
  let '(path, indirect) := insert_descent root value [] [] in
  root' ← put indirect (new_node value) root;
  balance (path ++ [indirect]) root'.

(** [insert(value)]. *)
Definition insert (t : AVLTree) (value : Z) : option AVLTree :=
  root' ← insert_root value (root t);
  Some {| _size := _size t + 1; root := root' |}.

(** ** The recursive specification *)

(** The child links the descent follows. *)
Fixpoint insert_dirs (value : Z) (p : AVLTreeNode) : list dir :=
  match p with
  | nullptr => []
  | Node l r x _ _ _ =>
      if x >? value then ToLeft :: insert_dirs value l else ToRight :: insert_dirs value r
  end.

Fixpoint ins (value : Z) (p : AVLTreeNode) : AVLTreeNode :=
  match p with
  | nullptr => rebalance (new_node value)
  | Node l r x c h s =>
      if x >? value then rebalance (Node (ins value l) r x c h s)
      else rebalance (Node l (ins value r) x c h s)
  end.

(** ** Lemmas *)

(** The descent records the slots of [prefixes_from] and stops at the
    slot [insert_dirs] leads to. *)
Lemma insert_descent_path cur value here acc :
  let '(path, indirect) := insert_descent cur value here acc in
  path ++ [indirect] = acc ++ prefixes_from here (insert_dirs value cur) ∧
  indirect = here ++ insert_dirs value cur.
Proof.
  revert here acc. induction cur as [|l IHl r IHr x c h s]; intros here acc; simpl.
  { by rewrite app_nil_r. }
  destruct (x >? value); [specialize (IHl (here ++ [ToLeft]) (acc ++ [here]))
              |specialize (IHr (here ++ [ToRight]) (acc ++ [here]))];
    destruct (insert_descent _ _ _ _) as [path ind]; destruct_and!; subst;
    rewrite <-!app_assoc in *; simpl in *; (split; [by rewrite H | done]).
Qed.

(** Attaching the new node at the slot the descent reaches gives a tree
    whose descent path is [path_ok], and rebalancing along it is [ins]. *)
Lemma attach_spec value p :
  wf p → ∃ p1, put (insert_dirs value p) (new_node value) p = Some p1 ∧
    path_ok (insert_dirs value p) p1 ∧ rebalance_along (insert_dirs value p) p1 = ins value p.
Proof.
  induction p as [|l IHl r IHr x c h s]; simpl.
  { intros _. by exists (new_node value). }
  intros (Hl & Hr & _). destruct (x >? value).
  - destruct (IHl Hl) as (l1 & Hput & Hok & Hreb). exists (Node l1 r x c h s).
    simpl. rewrite Hput. simpl. by rewrite Hreb.
  - destruct (IHr Hr) as (r1 & Hput & Hok & Hreb). exists (Node l r1 x c h s).
    simpl. rewrite Hput. simpl. by rewrite Hreb.
Qed.

(** The pointer-walking insertion computes the recursive one. *)
Lemma insert_root_spec value p : wf p → insert_root value p = Some (ins value p).
Proof.
  intros Hwf. unfold insert_root.
  pose proof (insert_descent_path p value [] []) as Hd.
  destruct (insert_descent p value [] []) as [path ind]. destruct Hd as [Hpath ->].
  destruct (attach_spec value p Hwf) as (p1 & Hput & Hok & Hreb).
  rewrite !app_nil_l in Hpath |- *. rewrite Hput. simpl. unfold balance. rewrite Hpath.
  rewrite app_nil_l, (balance_prefixes _ [] p1 p1) by done. simpl. by rewrite Hreb.
Qed.

Lemma ins_wf value p : wf p → wf (ins value p).
Proof.
  induction p as [|l IHl r IHr x c h s]; intros Hw; cbn [ins].
  { by apply rebalance_wf. }
  destruct Hw as (? & ? & _). case_match; apply rebalance_wf; simpl; auto.
Qed.

#[export] Hint Resolve ins_wf : avl.

Lemma ins_perm value p : inorder (ins value p) ≡ₚ value :: inorder p.
Proof.
  induction p as [|l IHl r IHr x c h s]; simpl; [done|].
  case_match; rewrite rebalance_inorder; simpl.
  - by rewrite IHl.
  - rewrite IHr. solve_Permutation.
Qed.

Lemma ins_bst value p : bst p → bst (ins value p).
Proof.
  induction p as [|l IHl r IHr x c h s]; simpl.
  { intros _. unfold bst. rewrite rebalance_inorder. repeat constructor. }
  rewrite bst_Node. intros (? & ? & Hl & Hr). case_match.
  - apply (bst_inorder (Node (ins value l) r x c h s)); [by rewrite rebalance_inorder|].
    apply bst_Node; split_and!; auto. rewrite ins_perm. constructor; [lia|done].
  - apply (bst_inorder (Node l (ins value r) x c h s)); [by rewrite rebalance_inorder|].
    apply bst_Node; split_and!; auto. rewrite ins_perm. constructor; [lia|done].
Qed.

#[export] Hint Resolve ins_bst : avl.

(** On a search tree, [ins] inserts into the sorted multiset. *)
Lemma ins_inorder value p : bst p → inorder (ins value p) = ins_sorted value (inorder p).
Proof.
  intros Hb. apply sorted_unique.
  - by apply ins_bst.
  - by apply ins_sorted_sorted.
  - by rewrite ins_perm, ins_sorted_perm.
Qed.

Lemma ins_count value p : wf p → count_of (ins value p) = count_of p + 1.
Proof.
  intros Hw. rewrite !wf_count by auto with avl.
  rewrite (Permutation_length (ins_perm value p)). simpl. lia.
Qed.

(** The tree [insert] builds keeps the invariant and holds the sorted
    insertion of the value. *)
Lemma ins_tree_inv t value :
  tree_inv t → tree_inv {| _size := _size t + 1; root := ins value (root t) |} ∧
    inorder (ins value (root t)) = ins_sorted value (elements t).
Proof.
  intros (Hw & Hb & Hs). unfold tree_inv, elements. simpl. split_and!; auto with avl.
  - by rewrite ins_count, Hs.
  - by apply ins_inorder.
Qed.

(** ** Correctness of [insert] *)

(** C7: on a tree whose cached fields are exact, the pointer-walking
    [insert] computes the recursive insertion [ins] and never faults. *)
Theorem insert_refines t value :
  wf (root t) → insert t value = Some {| _size := _size t + 1; root := ins value (root t) |}.
Proof. intros. unfold insert. by rewrite insert_root_spec. Qed.

Lemma insert_refines_witness :
  wf (root example_tree) ∧
  insert example_tree 4 = Some {| _size := 4; root := ins 4 (root example_tree) |}.
Proof. split; [decide_compute|apply (insert_refines example_tree 4); decide_compute]. Defined.

(** C1: [insert] never faults on a tree satisfying the invariant, keeps the
    invariant, adds one occurrence of the value to the sorted multiset of
    elements and increments [_size]. *)
Theorem insert_correct t value :
  tree_inv t → ∃ t', insert t value = Some t' ∧ tree_inv t' ∧
    elements t' = ins_sorted value (elements t) ∧ _size t' = _size t + 1.
Proof.
  intros Hinv. destruct (ins_tree_inv t value Hinv) as [Hinv' He].
  eexists. split_and!; [|exact Hinv'|exact He|done].
  unfold insert. rewrite insert_root_spec by apply Hinv. done.
Qed.

Lemma insert_correct_witness :
  tree_inv example_tree ∧ ∃ t', insert example_tree 4 = Some t' ∧ tree_inv t' ∧
    elements t' = ins_sorted 4 (elements example_tree) ∧ _size t' = _size example_tree + 1.
Proof.
  assert (tree_inv example_tree) as H by decide_compute.
  split; [exact H|apply (insert_correct example_tree 4 H)].
Defined.

End Insert.
