(* ===== verification/Erase.v ===== *)
(** * Erase: [AVLTree<T>::erase]

    Models [erase] (src/onefile.cpp, lines 166-234).  [erase_descent] is
    the search loop (lines 171-178): it stops at the first node whose
    value equals the erased one, or at a null slot.  If the slot is null
    the operation returns without touching the tree.  Otherwise the slot
    is recorded and one of three splices runs (lines 186-230): a leaf is
    cleared, a node with no right child is replaced by its left child (in
    both cases the slot is dropped from the path), and a node with a right
    child is replaced by its in-order successor, found by
    [successor_descent] (lines 204-209), which records the slots of the
    left spine it walks.  In the non-adjacent case the successor's parent
    adopts the successor's right subtree, the successor adopts both
    subtrees of the erased node, and the path entry [path\[index\]] is set
    to [&(suc->right)].  Finally [balance] runs and [_size] is decremented.

    In the slot-address model the entry [path\[index\]] already denotes
    the successor's right slot once the successor sits in the erased
    node's slot; the patch is written out as the code does it.

    [del] is the recursive deletion [erase] refines ([erase_refines]):
    [del_here] splices out the root of a subtree and [del_min] removes a
    leftmost node, rebalancing on the way back.  [erase_correct] shows
    that an erasure never faults, keeps every cached field exact and the
    order, and removes exactly one occurrence of a present value. *)

From Stdlib Require Import ZArith Lia.
From stdpp Require Import base list numbers sets.
From S2P Require Import Prelude.
From S2P Require Import Node.
From S2P Require Import Slot.
From S2P Require Import Balance.
From S2P Require Import Tree.
Import AVLNode Slot Balance Tree.

Open Scope Z_scope.
Open Scope avl_scope.

Module Erase.

(** The search loop (lines 171-178); [cur] is the node held by [indirect]. *)
Fixpoint erase_descent (cur : AVLTreeNode) (value : Z) (indirect : slot)
    (path : list slot) : list slot * slot :=
  match cur with
  | nullptr => (path, indirect)
  | Node l r x _ _ _ =>
      if negb (x =? value) then
        if x >? value then erase_descent l value (indirect ++ [ToLeft]) (path ++ [indirect])
        else erase_descent r value (indirect ++ [ToRight]) (path ++ [indirect])
      else (path, indirect)
  end.

(** The successor loop (lines 206-209): follow left links from the node
    held by [successor] while they are not null, recording each slot. *)
Fixpoint successor_descent (cur : AVLTreeNode) (successor : slot) (path : list slot)
    : option (list slot * slot) :=
  match cur with
  | nullptr => None
  | Node nullptr _ _ _ _ _ => Some (path, successor)
  | Node l _ _ _ _ _ => successor_descent l (successor ++ [ToLeft]) (path ++ [successor])
  end.

(** The splice of the node held by [indirect] (lines 186-230) and the
    final [balance] (line 232).  [path] already ends with [indirect]. *)
Definition erase_splice (root : AVLTreeNode) (indirect : slot) (path : list slot)
    (target : AVLTreeNode) : option AVLTreeNode :=
  let index := length path in
  if decide (left target = nullptr ∧ right target = nullptr) then
    (* the node is a leaf *)
    (root' ← put indirect nullptr root;
     balance (removelast path) root')
  else if decide (right target = nullptr) then
    (* only the left child exists *)
    (root' ← put indirect (left target) root;
     balance (removelast path) root')
  else
    (* the right child exists *)
    ('(path, successor) ← successor_descent (right target) (indirect ++ [ToRight]) path;
     suc ← get successor root;
     if decide (successor = indirect ++ [ToRight]) then
       (* the successor is the right child of the erased node *)
       (root' ← put indirect (set_child ToLeft (left target) suc) root;
        balance path root')
     else
       (tmp_slot ← list.last path;
        tmp ← get tmp_slot root;
        root1 ← put tmp_slot (set_child ToLeft (right suc) tmp) root;
        target1 ← get indirect root1;
        let suc' := set_child ToRight (right target1) (set_child ToLeft (left target1) suc) in
        root2 ← put indirect suc' root1;
        balance (<[index := indirect ++ [ToRight]]> path) root2)).

(** [erase(value)]. *)
Definition erase (t : AVLTree) (value : Z) : option AVLTree :=
  let '(path, indirect) := erase_descent (root t) value [] [] in
  target ← get indirect (root t);
  match target with
  | nullptr => Some t
  | Node _ _ _ _ _ _ =>
      root' ← erase_splice (root t) indirect (path ++ [indirect]) target;
      Some {| _size := _size t - 1; root := root' |}
  end.

(** ** Specification helpers *)

(** The child links the search follows. *)
Fixpoint erase_dirs (value : Z) (p : AVLTreeNode) : list dir :=
  match p with
  | nullptr => []
  | Node l r x _ _ _ =>
      if x =? value then []
      else if x >? value then ToLeft :: erase_dirs value l else ToRight :: erase_dirs value r
  end.

(** The subtree the search stops at. *)
Fixpoint find_node (value : Z) (p : AVLTreeNode) : AVLTreeNode :=
  match p with
  | nullptr => nullptr
  | Node l r x _ _ _ =>
      if x =? value then p else if x >? value then find_node value l else find_node value r
  end.

(** The left spine from a node to its leftmost descendant. *)
Fixpoint leftmost_dirs (p : AVLTreeNode) : list dir :=
  match p with
  | Node (Node _ _ _ _ _ _ as l) _ _ _ _ _ => ToLeft :: leftmost_dirs l
  | _ => []
  end.

(** The recursive deletion [erase] refines.  [del_min] removes the
    leftmost node and rebalances the spine above it; [del_here] removes the
    root of a subtree as the three splices of the code do; [del] searches
    as [erase_descent] does and rebalances every ancestor. *)
Fixpoint del_min (p : AVLTreeNode) : AVLTreeNode * Z :=
  match p with
  | nullptr => (nullptr, 0)
  | Node nullptr r x _ _ _ => (r, x)
  | Node l r x c h s => let '(l', m) := del_min l in (rebalance (Node l' r x c h s), m)
  end.

Definition del_here (p : AVLTreeNode) : AVLTreeNode :=
  match p with
  | nullptr => nullptr
  | Node tl nullptr _ _ _ _ => tl
  | Node tl tr _ c h s => let '(tr', m) := del_min tr in rebalance (Node tl tr' m c h s)
  end.

Fixpoint del (value : Z) (p : AVLTreeNode) : AVLTreeNode :=
  match p with
  | nullptr => nullptr
  | Node l r x c h s =>
      if x =? value then del_here p
      else if x >? value then rebalance (Node (del value l) r x c h s)
      else rebalance (Node l (del value r) x c h s)
  end.

(** The splices replace, inside the in-order sequence, the run of the
    erased node by the runs of its two subtrees. *)
Definition splices_out (p p' : AVLTreeNode) (tl : AVLTreeNode) (v : Z) (tr : AVLTreeNode) : Prop :=
  ∃ pre post, inorder p = pre ++ (inorder tl ++ v :: inorder tr) ++ post ∧
              inorder p' = pre ++ (inorder tl ++ inorder tr) ++ post.

(** ** Lemmas *)

Lemma erase_descent_path cur value here acc :
  let '(path, indirect) := erase_descent cur value here acc in
  path ++ [indirect] = acc ++ prefixes_from here (erase_dirs value cur) ∧
  indirect = here ++ erase_dirs value cur.
Proof.
  revert here acc. induction cur as [|l IHl r IHr x c h s]; intros here acc; simpl.
  { by rewrite app_nil_r. }
  destruct (x =? value); simpl; [by rewrite app_nil_r|].
  destruct (x >? value); [specialize (IHl (here ++ [ToLeft]) (acc ++ [here]))
                         |specialize (IHr (here ++ [ToRight]) (acc ++ [here]))];
    destruct (erase_descent _ _ _ _) as [path ind]; destruct_and!; subst;
    rewrite <-!app_assoc in *; simpl in *; (split; [by rewrite H | done]).
Qed.

Lemma get_erase_dirs value p : get (erase_dirs value p) p = Some (find_node value p).
Proof.
  induction p as [|l IHl r IHr x c h s]; simpl; [done|].
  by destruct (x =? value), (x >? value).
Qed.

Lemma find_node_value value p l r x c h s :
  find_node value p = Node l r x c h s → x = value.
Proof.
  induction p as [|pl IHl pr IHr px pc ph ps]; simpl; [done|].
  destruct (px =? value) eqn:E; [intros [= <- <- <- <- <- <-]; lia|].
  destruct (px >? value); auto.
Qed.

(** On a search tree, the search finds a node whenever the value occurs. *)
Lemma find_node_nullptr value p : bst p → find_node value p = nullptr → value ∉ inorder p.
Proof.
  induction p as [|l IHl r IHr x c h s]; simpl; [intros; apply not_elem_of_nil|].
  rewrite bst_Node. intros (? & ? & Hl & Hr).
  destruct (x =? value) eqn:E; [done|]. rewrite elem_of_app, elem_of_cons.
  destruct (x >? value) eqn:E'; intros Hf [Hin | [-> | Hin]]; try lia; try by eapply IHl.
  - pose proof (Forall_elem _ _ _ Hr Hin). simpl in *. lia.
  - pose proof (Forall_elem _ _ _ Hl Hin). simpl in *. lia.
  - by eapply IHr.
Qed.

Lemma successor_descent_spec cur s acc :
  cur ≠ nullptr →
  successor_descent cur s acc =
    Some (acc ++ removelast (prefixes_from s (leftmost_dirs cur)), s ++ leftmost_dirs cur).
Proof.
  revert s acc. induction cur as [|l IHl r _ x c h s0]; intros s acc Hne; [done|].
  destruct l as [|ll lr lv lc lh ls].
  { simpl. by rewrite !app_nil_r. }
  transitivity (successor_descent (Node ll lr lv lc lh ls) (s ++ [ToLeft]) (acc ++ [s]));
    [done|].
  rewrite IHl by done.
  change (leftmost_dirs (Node (Node ll lr lv lc lh ls) r x c h s0))
    with (ToLeft :: leftmost_dirs (Node ll lr lv lc lh ls)).
  rewrite prefixes_from_snoc, removelast_cons_prefixes_from, <-!app_assoc. done.
Qed.

(** The leftmost node of a nonempty tree comes first in its in-order
    sequence; replacing it by [X] replaces it (and its right subtree) by
    [X] at the front. *)
Lemma leftmost_spec tr :
  tr ≠ nullptr → ∃ sr sv sc sh ss,
    get (leftmost_dirs tr) tr = Some (Node nullptr sr sv sc sh ss) ∧
    ∀ X, ∃ tr' rest, put (leftmost_dirs tr) X tr = Some tr' ∧
      inorder tr = sv :: inorder sr ++ rest ∧ inorder tr' = inorder X ++ rest.
Proof.
  induction tr as [|l IHl r _ x c h s]; intros Hne; [done|].
  destruct l as [|ll lr lv lc lh ls].
  { exists r, x, c, h, s. split; [done|]. intros X. exists X, []. by rewrite !app_nil_r. }
  destruct (IHl ltac:(done)) as (sr & sv & sc & sh & ss & Hget & Hput).
  exists sr, sv, sc, sh, ss. split; [done|]. intros X.
  destruct (Hput X) as (l' & rest & HX & H1 & H2).
  exists (Node l' r x c h s), (rest ++ x :: inorder r). split_and!.
  - change (leftmost_dirs (Node (Node ll lr lv lc lh ls) r x c h s))
      with (ToLeft :: leftmost_dirs (Node ll lr lv lc lh ls)).
    cbn [put deref mbind option_bind child left]. by rewrite HX.
  - simpl in *. rewrite H1. simpl. by rewrite <-?app_assoc.
  - simpl. rewrite H2. by rewrite <-?app_assoc.
Qed.

(** Leaf and left-child-only cases: the slot receives [X], the path to its
    parent is rebalanced. *)
Lemma leftmost_dirs_Node l r x c h s :
  l ≠ nullptr → leftmost_dirs (Node l r x c h s) = ToLeft :: leftmost_dirs l.
Proof. by destruct l. Qed.

Lemma del_min_Node l r x c h s :
  l ≠ nullptr → del_min (Node l r x c h s) = let '(l', m) := del_min l in (rebalance (Node l' r x c h s), m).
Proof. by destruct l. Qed.

(** [del_min] removes the node the spine ends at and rebalances above it. *)
Lemma del_min_spec tr sr sv sc sh ss :
  get (leftmost_dirs tr) tr = Some (Node nullptr sr sv sc sh ss) →
  del_min tr = (rebalance_above (leftmost_dirs tr) right tr, sv).
Proof.
  induction tr as [|l IHl r _ x c h s]; [done|].
  destruct (decide (l = nullptr)) as [->|Hl]; [by intros [= -> -> _ _ _]|].
  rewrite del_min_Node, leftmost_dirs_Node by done. cbn [get deref mbind option_bind child left].
  intros Hg. rewrite (IHl Hg). done.
Qed.

(** [del] rebalances along the search path above the deleted node. *)
Lemma del_spec value p : del value p = rebalance_above (erase_dirs value p) del_here p.
Proof.
  induction p as [|l IHl r IHr x c h s]; [done|]. cbn [del erase_dirs].
  destruct (x =? value); [done|]. by destruct (x >? value); cbn; [rewrite IHl|rewrite IHr].
Qed.

Lemma replace_and_balance_parent p a n X :
  wf p → get a p = Some n → wf X →
  ∃ p', (p1 ← put a X p; balance (removelast (prefixes_from [] a)) p1) = Some p' ∧
    p' = rebalance_above a (λ _, X) p ∧ wf p' ∧
    ∃ pre post, inorder p = pre ++ inorder n ++ post ∧ inorder p' = pre ++ inorder X ++ post.
Proof.
  intros Hwf Hget HX.
  destruct (put_is_Some a X p) as [p1 Hp1]; [by eexists|].
  destruct (put_inorder a n X p p1 Hget Hp1) as (pre & post & H1 & H2).
  rewrite Hp1. cbn [mbind option_bind].
  destruct (decide (a = [])) as [->|Ha].
  { injection Hp1 as <-. exists X. split_and!; [reflexivity|done|done|]. exists pre, post; auto. }
  destruct (exists_last Ha) as (a' & d & ->).
  pose proof (rebalance_along_put_last a' d X p p1 Hp1) as Hexact.
  rewrite removelast_prefixes_from.
  rewrite put_snoc in Hp1. destruct (get a' p) as [par|] eqn:Hpar; [|done].
  destruct par as [|pl pr pv pc ph ps]; [done|]. cbn [deref mbind option_bind] in Hp1.
  assert (wf (Node pl pr pv pc ph ps)) as (? & ? & _) by (by apply (get_wf a' p)).
  assert (path_ok a' p1).
  { rewrite <-(app_nil_r a'). apply (path_ok_put a' [] _ p p1 Hwf Hp1). destruct d; simpl; auto. }
  rewrite balance_from_root by done. eexists; split_and!; [done|done|auto with avl|].
  exists pre, post. by rewrite rebalance_along_inorder.
Qed.

(** The erased node's right child is its successor. *)
Lemma splice_adjacent p a tl trr trv trc trh trs v c h s :
  let tr := Node nullptr trr trv trc trh trs in
  wf p → get a p = Some (Node tl tr v c h s) →
  ∃ p', erase_splice p a (prefixes_from [] a) (Node tl tr v c h s) = Some p' ∧
    p' = rebalance_above a del_here p ∧ wf p' ∧ splices_out p p' tl v tr.
Proof.
  intros tr Hwf Hget.
  assert (wf (Node tl tr v c h s)) as (Htl & Htr & _) by (by apply (get_wf a p)).
  unfold erase_splice. cbn [left right]. subst tr.
  rewrite !decide_False by naive_solver. cbn [successor_descent mbind option_bind].
  rewrite get_snoc, Hget. cbn [deref mbind option_bind child right].
  rewrite decide_True by done. cbn [set_child].
  set (Y := Node tl trr trv trc trh trs).
  destruct (put_is_Some a Y p) as [p1 Hp1]; [by eexists|]. rewrite Hp1. cbn [mbind option_bind].
  assert (path_ok a p1).
  { rewrite <-(app_nil_r a). apply (path_ok_put a [] _ p p1 Hwf Hp1). simpl in Htr. simpl; tauto. }
  rewrite balance_from_root by done. eexists; split_and!; [done| |auto with avl|].
  - rewrite <-(app_nil_r a) at 1. rewrite (rebalance_along_put a [] Y p p1 Hp1).
    by apply (rebalance_above_ext _ _ _ _ _ Hget).
  - destruct (put_inorder _ _ _ _ _ Hget Hp1) as (pre & post & H1 & H2).
    exists pre, post. rewrite rebalance_along_inorder, H1, H2. done.
Qed.

Lemma leftmost_dirs_left p : Forall (λ d, d = ToLeft) (leftmost_dirs p).
Proof. induction p as [|[] IHl]; simpl; try constructor; auto. Qed.

(** The first recorded slot of the spine is the erased node's right slot. *)
Lemma patch_id a ld' :
  <[length (prefixes_from [] a) := a ++ [ToRight]]>
    (prefixes_from [] a ++ prefixes_from (a ++ [ToRight]) ld') =
  prefixes_from [] (a ++ ToRight :: ld').
Proof.
  rewrite prefixes_from_app, app_nil_l. apply list_insert_id.
  destruct ld'; by apply list_lookup_middle.
Qed.

(** When the successor is not the first node of the spine, it is the
    left child of a parent [P] on the spine. *)
Lemma leftmost_parent tr sr sv sc sh ss :
  get (leftmost_dirs tr) tr = Some (Node nullptr sr sv sc sh ss) → leftmost_dirs tr ≠ [] →
  ∃ ld' Pr Pv Pc Ph Ps, leftmost_dirs tr = ld' ++ [ToLeft] ∧
    get ld' tr = Some (Node (Node nullptr sr sv sc sh ss) Pr Pv Pc Ph Ps).
Proof.
  intros Hsuc Hld. destruct (exists_last Hld) as (ld' & d & Hld').
  assert (d = ToLeft) as ->.
  { eapply (Forall_elem _ _ _ (leftmost_dirs_left tr)). rewrite Hld'. set_solver. }
  rewrite Hld', get_snoc in Hsuc.
  destruct (get ld' tr) as [P|] eqn:HP; [|done].
  destruct P as [|Pl Pr Pv Pc Ph Ps]; [done|]. cbn [deref mbind option_bind child left] in Hsuc.
  injection Hsuc as ->. by exists ld', Pr, Pv, Pc, Ph, Ps.
Qed.

(** The successor lies deeper on the left spine of the right child. *)
Lemma splice_successor p a tl tr v c h s :
  wf p → get a p = Some (Node tl tr v c h s) → left tr ≠ nullptr →
  ∃ p', erase_splice p a (prefixes_from [] a) (Node tl tr v c h s) = Some p' ∧
    p' = rebalance_above a del_here p ∧ wf p' ∧ splices_out p p' tl v tr.
Proof.
  intros Hwf Hget Hl.
  assert (tr ≠ nullptr) as Htr0 by (by intros ->).
  assert (wf (Node tl tr v c h s)) as (Htl & Htr & _) by (by apply (get_wf a p)).
  destruct (leftmost_spec tr Htr0) as (sr & sv & sc & sh & ss & Hsuc & Hput).
  destruct (Hput sr) as (tr' & rest & Htr' & Hin1 & Hin2).
  (* the successor's parent [P] *)
  destruct (leftmost_parent tr sr sv sc sh ss Hsuc) as (ld' & Pr & Pv & Pc & Ph & Ps & Hld' & HP);
    [by destruct tr as [|[]]|].
  assert (rebalance_along ld' tr' = rebalance_above (leftmost_dirs tr) right tr) as Hrb.
  { rewrite (rebalance_along_put_last ld' ToLeft sr tr tr') by (by rewrite <-Hld').
    rewrite <-Hld'. by apply (rebalance_above_ext _ _ _ _ _ Hsuc). }
  assert (wf (Node (Node nullptr sr sv sc sh ss) Pr Pv Pc Ph Ps)) as (HS & HPr & _)
    by (by apply (get_wf ld' tr)).
  rewrite Hld', put_snoc, HP in Htr'. cbn [deref mbind option_bind set_child] in Htr'.
  (* the tree after the successor's parent adopts the successor's right subtree *)
  destruct (put_is_Some a (Node tl tr' v c h s) p) as [root1 Hroot1]; [by eexists|].
  destruct (put_is_Some a (Node tl tr' sv sc sh ss) p) as [root2 Hroot2]; [by eexists|].
  assert (path_ok (a ++ ToRight :: ld') root2) as Hok.
  { apply (path_ok_put a _ _ p root2 Hwf Hroot2). split; [done|].
    rewrite <-(app_nil_r ld'). apply (path_ok_put ld' [] _ tr tr' Htr Htr').
    simpl in HS |- *. tauto. }
  enough (erase_splice p a (prefixes_from [] a) (Node tl tr v c h s) =
          Some (rebalance_along (a ++ ToRight :: ld') root2)) as ->.
  { eexists; split_and!; [done| |auto with avl|].
    { rewrite (rebalance_along_put a (ToRight :: ld') _ p root2 Hroot2).
      apply (rebalance_above_ext _ _ _ _ _ Hget).
      cbn [rebalance_along child set_child right]. rewrite Hrb.
      destruct tr as [|trl trr trv trc trh trs]; [done|]. cbn [del_here].
      by rewrite (del_min_spec _ _ _ _ _ _ Hsuc). }
    destruct (put_inorder _ _ _ _ _ Hget Hroot2) as (pre & post & H1 & H2).
    exists pre, post. rewrite rebalance_along_inorder, H1, H2. simpl. by rewrite Hin1, Hin2. }
  unfold erase_splice. cbn [left right].
  rewrite !decide_False by naive_solver.
  rewrite successor_descent_spec by done. cbn [mbind option_bind].
  rewrite Hld', removelast_prefixes_from, <-!app_assoc, get_app, Hget.
  cbn [mbind option_bind app get deref child right].
  rewrite get_snoc, HP. cbn [deref mbind option_bind child left].
  rewrite decide_False by (intros Heq%app_inv_head; injection Heq; by destruct ld').
  rewrite last_app, last_prefixes_from. cbn [mbind option_bind].
  rewrite <-!app_assoc, get_app, Hget. cbn [mbind option_bind app get deref child right].
  rewrite HP. cbn [mbind option_bind set_child right].
  replace (put (a ++ ToRight :: ld') _ p) with (Some root1).
  2: { rewrite put_app, Hget. cbn [mbind option_bind put deref child right set_child].
       rewrite Htr'. cbn [mbind option_bind set_child]. by rewrite Hroot1. }
  cbn [mbind option_bind]. rewrite (get_put _ _ _ _ Hroot1).
  cbn [mbind option_bind set_child left right].
  rewrite (put_put _ _ _ _ _ Hroot1), Hroot2. cbn [mbind option_bind].
  by rewrite patch_id, balance_from_root.
Qed.

(** Every splice removes exactly the erased node. *)
Lemma splice_spec p a tl tr v c h s :
  wf p → get a p = Some (Node tl tr v c h s) →
  ∃ p', erase_splice p a (prefixes_from [] a) (Node tl tr v c h s) = Some p' ∧
    p' = rebalance_above a del_here p ∧ wf p' ∧ splices_out p p' tl v tr.
Proof.
  intros Hwf Hget.
  assert (wf (Node tl tr v c h s)) as (Htl & Htr & _) by (by apply (get_wf a p)).
  destruct tr as [|[|trl1 trl2 trlv trlc trlh trls] trr trv trc trh trs].
  - destruct (replace_and_balance_parent p a _ tl Hwf Hget Htl)
      as (p' & Heq & -> & Hw & pre & post & H1 & H2).
    eexists. split_and!; [| |done|].
    2: { by apply (rebalance_above_ext _ _ _ _ _ Hget). }
    + unfold erase_splice. cbn [left right].
      destruct (decide (tl = nullptr)) as [->|].
      * by rewrite decide_True.
      * rewrite decide_False by naive_solver. by rewrite decide_True.
    + exists pre, post. rewrite H1, H2. simpl. by rewrite app_nil_r.
  - by apply splice_adjacent.
  - by apply splice_successor.
Qed.

(** ** Correctness of [erase] *)

(** [erase] of a value the search does not find leaves the tree unchanged. *)
Lemma erase_absent t value : find_node value (root t) = nullptr → erase t value = Some t.
Proof.
  intros Hf. unfold erase.
  pose proof (erase_descent_path (root t) value [] []) as Hd.
  destruct (erase_descent (root t) value [] []) as [path ind]. destruct Hd as [_ ->].
  by rewrite app_nil_l, get_erase_dirs, Hf.
Qed.

(** [erase] of a value the search finds computes [del]. *)
Lemma erase_found t value tl tr v c h s :
  wf (root t) → find_node value (root t) = Node tl tr v c h s →
  erase t value = Some {| _size := _size t - 1; root := del value (root t) |} ∧
    wf (del value (root t)) ∧ splices_out (root t) (del value (root t)) tl v tr.
Proof.
  intros Hwf Hf. pose proof (find_node_value _ _ _ _ _ _ _ _ Hf) as ->. unfold erase.
  pose proof (erase_descent_path (root t) value [] []) as Hd.
  destruct (erase_descent (root t) value [] []) as [path ind]. destruct Hd as [Hpath ->].
  rewrite app_nil_l in Hpath |- *. rewrite get_erase_dirs, Hf. cbn [mbind option_bind].
  rewrite Hpath, app_nil_l.
  destruct (splice_spec (root t) (erase_dirs value (root t)) tl tr value c h s Hwf)
    as (p' & Heq & Hp' & Hw & Hs); [by rewrite get_erase_dirs, Hf|].
  rewrite Heq, del_spec, <-Hp'. done.
Qed.

(** [erase] on a tree satisfying the invariant. *)
Lemma erase_spec t value :
  tree_inv t → ∃ t', erase t value = Some t' ∧ tree_inv t' ∧
    elements t' = remove_one value (elements t) ∧
    _size t' = _size t - (if decide (value ∈ elements t) then 1 else 0).
Proof.
  intros (Hwf & Hbst & Hsize). unfold elements.
  destruct (find_node value (root t)) as [|tl tr v c h s] eqn:Hf.
  { exists t. rewrite erase_absent by done. apply find_node_nullptr in Hf; [|done].
    rewrite remove_one_notin, decide_False by done. split_and!; [done|done|done|lia]. }
  destruct (erase_found t value tl tr v c h s Hwf Hf) as (-> & Hw & pre & post & H1 & H2).
  pose proof (find_node_value _ _ _ _ _ _ _ _ Hf) as ->.
  assert (inorder (del value (root t)) = remove_one value (inorder (root t))) as Hrem.
  { assert (pre ++ (inorder tl ++ value :: inorder tr) ++ post =
            (pre ++ inorder tl) ++ value :: (inorder tr ++ post)) as Hl
      by (by rewrite <-!app_assoc).
    assert (pre ++ (inorder tl ++ inorder tr) ++ post =
            (pre ++ inorder tl) ++ (inorder tr ++ post)) as Hr by (by rewrite <-!app_assoc).
    rewrite H2, H1, Hl, Hr. apply remove_one_middle. rewrite <-Hl, <-H1. done. }
  assert (value ∈ inorder (root t)) as Hin by (rewrite H1; set_solver).
  eexists; split_and!; [done|split_and!| |].
  - done.
  - unfold bst. simpl. rewrite Hrem. by apply remove_one_sorted.
  - simpl. rewrite Hsize, !wf_count, Hrem by done.
    rewrite (length_remove_one value (inorder (root t))) by done. lia.
  - done.
  - rewrite decide_True by done. done.
Qed.

(** C2: [erase] never faults on a tree satisfying the invariant, keeps the
    invariant, removes one occurrence of the value from the sorted
    multiset of elements when it is present (and changes nothing
    otherwise), and decrements [_size] exactly when it removed a node. *)
Theorem erase_correct t value :
  tree_inv t → ∃ t', erase t value = Some t' ∧ tree_inv t' ∧
    elements t' = remove_one value (elements t) ∧
    _size t' = _size t - (if decide (value ∈ elements t) then 1 else 0).
Proof. apply erase_spec. Qed.

Lemma erase_correct_witness :
  tree_inv example_tree ∧ ∃ t', erase example_tree 2 = Some t' ∧ tree_inv t' ∧
    elements t' = remove_one 2 (elements example_tree) ∧
    _size t' = _size example_tree - (if decide (2 ∈ elements example_tree) then 1 else 0).
Proof.
  assert (tree_inv example_tree) as H by decide_compute.
  split; [exact H|apply (erase_correct example_tree 2 H)].
Defined.

(** C8: on a tree satisfying the invariant, [erase] of a value that occurs
    computes the recursive deletion [del]: the search path, the splice of
    the found node (its in-order successor taking its place when it has a
    right child) and the rebalancing of the successor's spine and of every
    ancestor, bottom-up. *)
Theorem erase_refines t value :
  tree_inv t → value ∈ elements t →
  erase t value = Some {| _size := _size t - 1; root := del value (root t) |}.
Proof.
  intros (Hwf & Hbst & _) Hin.
  destruct (find_node value (root t)) as [|tl tr v c h s] eqn:Hf.
  - by apply find_node_nullptr in Hf.
  - by apply (erase_found t value tl tr v c h s).
Qed.

Lemma erase_refines_witness :
  tree_inv example_tree ∧ 2 ∈ elements example_tree ∧
  erase example_tree 2 = Some {| _size := _size example_tree - 1; root := del 2 (root example_tree) |}.
Proof.
  assert (tree_inv example_tree) as H by decide_compute.
  assert (2 ∈ elements example_tree) as Hin by (vm_compute; set_solver).
  split_and!; [exact H|exact Hin|apply (erase_refines example_tree 2 H Hin)].
Defined.

End Erase.
