(* ===== verification/Query.v ===== *)
(** * Query: the read-only operations of [AVLTree<T>]

    Models [find] (src/onefile.cpp, lines 271-290), [upper_bound] (292-307),
    [lower_bound] (309-324), [find_min] (326-334), [find_max] (336-344),
    [operator\[\]] (346-366) and the range sum [sum] (368-452).  Each loop
    walks down from the root with a pointer [direct]/[cur]; it is a
    structural recursion on the subtree the pointer holds.  The rank
    queries accumulate [idx] from the cached [count] of skipped left
    subtrees; [sum] accumulates [res] from the cached [sum] fields.

    Dereferencing a null pointer ([find_min]/[find_max] or [operator\[\]]
    on an empty tree, [operator\[\]] past the end) is [None]; the failing
    [assert(l <= r)] of [sum] is [None] as well.  [find] returns the
    sentinel [-1] for an absent value, as the code does.

    [operator\[\]] takes a [std::size_t] and compares the counts with
    [int(idx)]: [int_of] is that conversion (the low 32 bits in two's
    complement) and [size_t_sub] the unsigned [idx -= left + 1].  So the
    index is read modulo [2^32], and [operator_at_correct] describes the
    wrap-around. *)

From Stdlib Require Import ZArith Lia.
From stdpp Require Import base list numbers.
From S2P Require Import Prelude.
From S2P Require Import Node.
From S2P Require Import Tree.
Import AVLNode Tree.

Open Scope Z_scope.
Open Scope avl_scope.

Module Query.

(** [find]: the loop (lines 276-283) and the final read (285-289). *)
Fixpoint find_loop (direct : AVLTreeNode) (value idx : Z) : Z :=
  match direct with
  | nullptr => -1
  | Node l r x _ _ _ =>
      if negb (x =? value) then
        if x >? value then find_loop l value idx
        else find_loop r value (idx + (count_of l + 1))
      else idx + count_of l
  end.

Definition find (t : AVLTree) (value : Z) : Z := find_loop (root t) value 0.

(** [upper_bound]: number of elements [<= value]. *)
Fixpoint upper_bound_loop (direct : AVLTreeNode) (value idx : Z) : Z :=
  match direct with
  | nullptr => idx
  | Node l r x _ _ _ =>
      if x >? value then upper_bound_loop l value idx
      else upper_bound_loop r value (idx + (count_of l + 1))
  end.

Definition upper_bound (t : AVLTree) (value : Z) : Z := upper_bound_loop (root t) value 0.

(** [lower_bound]: number of elements [< value]. *)
Fixpoint lower_bound_loop (direct : AVLTreeNode) (value idx : Z) : Z :=
  match direct with
  | nullptr => idx
  | Node l r x _ _ _ =>
      if x >=? value then lower_bound_loop l value idx
      else lower_bound_loop r value (idx + (count_of l + 1))
  end.

Definition lower_bound (t : AVLTree) (value : Z) : Z := lower_bound_loop (root t) value 0.

(** [find_min] / [find_max]: follow left / right links while they are
    not null; [cur] itself is dereferenced first. *)
Fixpoint find_min_loop (cur : AVLTreeNode) : option Z :=
  match cur with
  | nullptr => None
  | Node nullptr _ x _ _ _ => Some x
  | Node l _ _ _ _ _ => find_min_loop l
  end.

Fixpoint find_max_loop (cur : AVLTreeNode) : option Z :=
  match cur with
  | nullptr => None
  | Node _ nullptr x _ _ _ => Some x
  | Node _ r _ _ _ _ => find_max_loop r
  end.

Definition find_min (t : AVLTree) : option Z := find_min_loop (root t).
Definition find_max (t : AVLTree) : option Z := find_max_loop (root t).

(** [int(x)] for a [std::size_t] [x] (lines 351-352): the low 32 bits
    read in two's complement, the conversion C++20 fixes and the one
    mainstream compilers implement before it. *)
Definition int_of (x : Z) : Z := (x + 2^31) mod 2^32 - 2^31.

(** [idx -= k] on a [std::size_t]: subtraction modulo [2^64]. *)
Definition size_t_sub (x k : Z) : Z := (x - k) mod 2^64.

(** [operator\[\](idx)] (lines 346-366): [left] is the count of [cur]'s
    left subtree, compared with [int(idx)]; moving right subtracts
    [left + 1] from the unsigned [idx]. *)
Fixpoint at_loop (cur : AVLTreeNode) (idx : Z) : option Z :=
  match cur with
  | nullptr => None
  | Node l r x _ _ _ =>
      let left := count_of l in
      if negb (left =? int_of idx) then
        if left <? int_of idx then at_loop r (size_t_sub idx (left + 1)) else at_loop l idx
      else Some x
  end.

Definition operator_at (t : AVLTree) (idx : Z) : option Z := at_loop (root t) idx.

(** [sum(l, r)], first loop (lines 379-395): descend to the first node
    inside [\[l, r\]]; [None] is the early [return res] with [res = T()]. *)
Fixpoint find_split (subtree : AVLTreeNode) (l r : Z) : option AVLTreeNode :=
  match subtree with
  | nullptr => None
  | Node cl cr v _ _ _ =>
      if v <? l then
        match cr with nullptr => None | _ => find_split cr l r end
      else if v >? r then
        match cl with nullptr => None | _ => find_split cl l r end
      else Some subtree
  end.

(** The body of the loop over [left_side] after the move (lines 418-423). *)
Definition left_add (left_side : AVLTreeNode) (l res : Z) : Z :=
  match left_side with
  | nullptr => res
  | Node _ nr nv _ _ _ =>
      if nv >=? l then res + nv + (if decide (nr = nullptr) then 0 else sum_of nr) else res
  end.

(** The loop over [left_side] (lines 401-424): move left when the value is
    [>= l], right otherwise, and stop at a leaf or a missing child. *)
Fixpoint left_walk (left_side : AVLTreeNode) (l res : Z) : Z :=
  match left_side with
  | nullptr => res
  | Node cl cr v _ _ _ =>
      if decide (cl = nullptr ∧ cr = nullptr) then res
      else if v >=? l then
        match cl with nullptr => res | _ => left_walk cl l (left_add cl l res) end
      else
        match cr with nullptr => res | _ => left_walk cr l (left_add cr l res) end
  end.

(** The body of the loop over [right_side] after the move (lines 443-448). *)
Definition right_add (right_side : AVLTreeNode) (r res : Z) : Z :=
  match right_side with
  | nullptr => res
  | Node nl _ nv _ _ _ =>
      if nv <=? r then res + nv + (if decide (nl = nullptr) then 0 else sum_of nl) else res
  end.

(** The loop over [right_side] (lines 426-449). *)
Fixpoint right_walk (right_side : AVLTreeNode) (r res : Z) : Z :=
  match right_side with
  | nullptr => res
  | Node cl cr v _ _ _ =>
      if decide (cl = nullptr ∧ cr = nullptr) then res
      else if v <=? r then
        match cr with nullptr => res | _ => right_walk cr r (right_add cr r res) end
      else
        match cl with nullptr => res | _ => right_walk cl r (right_add cl r res) end
  end.

Definition value_of (p : AVLTreeNode) : Z :=
  match p with nullptr => 0 | Node _ _ v _ _ _ => v end.

Definition sum (t : AVLTree) (l r : Z) : option Z :=
  if negb (l <=? r) then None
  else
    let res := 0 in
    match root t with
    | nullptr => Some res
    | _ =>
        match find_split (root t) l r with
        | None => Some res
        | Some subtree =>
            let res := res + value_of subtree in
            Some (right_walk subtree r (left_walk subtree l res))
        end
    end.

(** Sums of the elements at least [l] / at most [r]. *)
Definition sum_ge (l : Z) (L : list Z) : Z := Σ (filter (λ y, l ≤ y) L).
Definition sum_le (r : Z) (L : list Z) : Z := Σ (filter (λ y, y ≤ r) L).

(** ** Rank queries *)

Lemma lower_bound_loop_spec p value idx :
  wf p → bst p → lower_bound_loop p value idx = idx + Z.of_nat (count_lt value (inorder p)).
Proof.
  revert idx. induction p as [|l IHl r IHr x c h s]; intros idx Hw Hb; simpl;
    [unfold count_lt; simpl; lia|].
  destruct Hw as (Hwl & Hwr & _). apply bst_Node in Hb as (Hbl & Hbr & Hl & Hr).
  unfold count_lt. rewrite list.filter_app, length_app, filter_cons.
  destruct (x >=? value) eqn:E.
  - rewrite IHl by done. rewrite (filter_Forall_none _ (inorder r)).
    2: { apply (Forall_weaken _ _ _ Hr). intros; lia. }
    rewrite decide_False by lia. simpl. unfold count_lt. lia.
  - rewrite IHr by done. rewrite (filter_Forall_all _ (inorder l)).
    2: { apply (Forall_weaken _ _ _ Hl). intros; lia. }
    rewrite decide_True by lia. simpl. rewrite wf_count by done. unfold count_lt. lia.
Qed.

Lemma upper_bound_loop_spec p value idx :
  wf p → bst p → upper_bound_loop p value idx = idx + Z.of_nat (count_le value (inorder p)).
Proof.
  revert idx. induction p as [|l IHl r IHr x c h s]; intros idx Hw Hb; simpl;
    [unfold count_le; simpl; lia|].
  destruct Hw as (Hwl & Hwr & _). apply bst_Node in Hb as (Hbl & Hbr & Hl & Hr).
  unfold count_le. rewrite list.filter_app, length_app, filter_cons.
  destruct (x >? value) eqn:E.
  - rewrite IHl by done. rewrite (filter_Forall_none _ (inorder r)).
    2: { apply (Forall_weaken _ _ _ Hr). intros; lia. }
    rewrite decide_False by lia. simpl. unfold count_le. lia.
  - rewrite IHr by done. rewrite (filter_Forall_all _ (inorder l)).
    2: { apply (Forall_weaken _ _ _ Hl). intros; lia. }
    rewrite decide_True by lia. simpl. rewrite wf_count by done. unfold count_le. lia.
Qed.

Lemma find_loop_absent p value idx : value ∉ inorder p → find_loop p value idx = -1.
Proof.
  revert idx. induction p as [|l IHl r IHr x c h s]; intros idx Hin; simpl; [done|].
  simpl in Hin. rewrite elem_of_app, elem_of_cons in Hin.
  destruct (x =? value) eqn:E; [exfalso; apply Hin; right; left; lia|]. simpl.
  destruct (x >? value); [apply IHl | apply IHr]; naive_solver.
Qed.

Lemma find_loop_present p value idx :
  wf p → bst p → value ∈ inorder p →
  ∃ k, find_loop p value idx = idx + Z.of_nat k ∧ inorder p !! k = Some value.
Proof.
  revert idx. induction p as [|l IHl r IHr x c h s]; intros idx Hw Hb Hin;
    [by apply elem_of_nil in Hin|].
  destruct Hw as (Hwl & Hwr & _). apply bst_Node in Hb as (Hbl & Hbr & Hl & Hr).
  simpl in Hin |- *. rewrite elem_of_app, elem_of_cons in Hin.
  destruct (x =? value) eqn:E; simpl.
  { apply Z.eqb_eq in E as ->. exists (length (inorder l)). rewrite wf_count by done.
    split; [lia|]. apply list_lookup_middle. lia. }
  destruct (x >? value) eqn:E'.
  - destruct Hin as [Hin | [-> | Hin]]; [|lia|].
    2: { pose proof (Forall_elem _ _ _ Hr Hin). simpl in *. lia. }
    destruct (IHl idx Hwl Hbl Hin) as (k & -> & Hk). exists k. split; [done|].
    rewrite lookup_app_l; [done|]. by eapply lookup_lt_Some.
  - destruct Hin as [Hin | [-> | Hin]]; [|lia|].
    { pose proof (Forall_elem _ _ _ Hl Hin). simpl in *. lia. }
    destruct (IHr (idx + (count_of l + 1)) Hwr Hbr Hin) as (k & -> & Hk).
    exists (length (inorder l) + S k)%nat. rewrite wf_count by done. split; [lia|].
    rewrite lookup_app_r by lia. rewrite Nat.add_comm, Nat.add_sub. done.
Qed.

(** ** Positional queries *)

Lemma int_of_small x : -2^31 ≤ x < 2^31 → int_of x = x.
Proof. unfold int_of. mod_lia. Qed.

Lemma int_of_congr x y : x mod 2^32 = y mod 2^32 → int_of x = int_of y.
Proof. unfold int_of. mod_lia. Qed.

Lemma size_t_sub_congr x y k :
  x mod 2^32 = y mod 2^32 → size_t_sub x k mod 2^32 = size_t_sub y k mod 2^32.
Proof. unfold size_t_sub. mod_lia. Qed.

(** [operator\[\]] reads only the low 32 bits of the index. *)
Lemma at_loop_congr p x y : x mod 2^32 = y mod 2^32 → at_loop p x = at_loop p y.
Proof.
  revert x y. induction p as [|l IHl r IHr v c h s]; intros x y Hxy; [done|]. cbn [at_loop].
  rewrite (int_of_congr x y Hxy). case_match; [|done]. case_match.
  - apply IHr. by apply size_t_sub_congr.
  - by apply IHl.
Qed.

(** Below [2^31] the index is its own [int]: the loop finds the element
    at that position, or faults past the end. *)
Lemma at_loop_spec p idx : wf p → 0 ≤ idx < 2^31 → at_loop p idx = inorder p !! Z.to_nat idx.
Proof.
  revert idx. induction p as [|l IHl r IHr x c h s]; intros idx Hw Hidx; simpl; [done|].
  destruct Hw as (Hwl & Hwr & _). rewrite int_of_small by lia. rewrite wf_count by done.
  destruct (Z.of_nat (length (inorder l)) =? idx) eqn:E; simpl.
  { symmetry. apply list_lookup_middle. lia. }
  destruct (Z.of_nat (length (inorder l)) <? idx) eqn:E'.
  - assert (size_t_sub idx (Z.of_nat (length (inorder l)) + 1) =
            idx - (Z.of_nat (length (inorder l)) + 1)) as -> by (unfold size_t_sub; mod_lia).
    rewrite IHr by (done || lia). rewrite lookup_app_r by lia.
    replace (Z.to_nat idx - length (inorder l))%nat with (S (Z.to_nat (idx - (Z.of_nat (length (inorder l)) + 1)))) by lia.
    done.
  - rewrite IHl by (done || lia). rewrite lookup_app_l by lia. done.
Qed.

(** A negative [int(idx)] is never reached by a count: the loop goes left
    until it dereferences null. *)
Lemma at_loop_negative p idx : wf p → int_of idx < 0 → at_loop p idx = None.
Proof.
  induction p as [|l IHl r IHr x c h s]; intros Hw Hneg; simpl; [done|].
  destruct Hw as (Hwl & _ & _). rewrite wf_count by done.
  rewrite (proj2 (Z.eqb_neq _ _)), (proj2 (Z.ltb_ge _ _)) by lia. by apply IHl.
Qed.

Lemma find_min_loop_spec p : find_min_loop p = head (inorder p).
Proof.
  induction p as [|l IHl r _ x c h s]; [done|].
  destruct l as [|ll lr lv lc lh ls]; [done|].
  change (find_min_loop (Node (Node ll lr lv lc lh ls) r x c h s))
    with (find_min_loop (Node ll lr lv lc lh ls)).
  rewrite IHl. simpl. rewrite <-app_assoc. by destruct (inorder ll).
Qed.

Lemma find_max_loop_spec p : find_max_loop p = list.last (inorder p).
Proof.
  induction p as [|l _ r IHr x c h s]; [done|].
  destruct r as [|rl rr rv rc rh rs]; [simpl; by rewrite last_snoc|].
  change (find_max_loop (Node l (Node rl rr rv rc rh rs) x c h s))
    with (find_max_loop (Node rl rr rv rc rh rs)).
  rewrite IHr. cbn [inorder].
  rewrite (last_app_cons (inorder l)), (last_cons x), (last_app_cons (inorder rl)), (last_cons rv).
  by destruct (list.last (inorder rr)).
Qed.

(** ** Range sum *)

Lemma sum_ge_Node l nl nr nv c h s :
  wf nr → bst (Node nl nr nv c h s) →
  sum_ge l (inorder (Node nl nr nv c h s)) =
    if decide (l ≤ nv) then sum_ge l (inorder nl) + nv + sum_of nr else sum_ge l (inorder nr).
Proof.
  intros Hw Hb. apply bst_Node in Hb as (_ & _ & Hl & Hr).
  unfold sum_ge. simpl. rewrite list.filter_app, filter_cons, sum_list_app. case_decide.
  - rewrite (filter_Forall_all _ (inorder nr)), wf_sum by (done || apply (Forall_weaken _ _ _ Hr); intros; lia).
    simpl. lia.
  - rewrite (filter_Forall_none _ (inorder nl)) by (apply (Forall_weaken _ _ _ Hl); intros; lia).
    simpl. lia.
Qed.

Lemma sum_le_Node r nl nr nv c h s :
  wf nl → bst (Node nl nr nv c h s) →
  sum_le r (inorder (Node nl nr nv c h s)) =
    if decide (nv ≤ r) then sum_of nl + nv + sum_le r (inorder nr) else sum_le r (inorder nl).
Proof.
  intros Hw Hb. apply bst_Node in Hb as (_ & _ & Hl & Hr).
  unfold sum_le. simpl. rewrite list.filter_app, filter_cons, sum_list_app. case_decide.
  - rewrite (filter_Forall_all _ (inorder nl)), wf_sum by (done || apply (Forall_weaken _ _ _ Hl); intros; lia).
    simpl. lia.
  - rewrite (filter_Forall_none _ (inorder nr)) by (apply (Forall_weaken _ _ _ Hr); intros; lia).
    simpl. lia.
Qed.

Lemma left_add_Node l res nl nr nv c h s :
  left_add (Node nl nr nv c h s) l res = res + (if decide (l ≤ nv) then nv + sum_of nr else 0).
Proof. unfold left_add. destruct (nv >=? l) eqn:E; repeat case_decide; subst; simpl; lia. Qed.

Lemma right_add_Node r res nl nr nv c h s :
  right_add (Node nl nr nv c h s) r res = res + (if decide (nv ≤ r) then nv + sum_of nl else 0).
Proof. unfold right_add. destruct (nv <=? r) eqn:E; repeat case_decide; subst; simpl; lia. Qed.

(** The walk over [left_side] adds the elements [>= l] of the subtree it
    descends into. *)
Lemma left_walk_spec p l res :
  wf p → bst p →
  left_walk p l res = res + match p with
                            | nullptr => 0
                            | Node cl cr v _ _ _ =>
                                if decide (l ≤ v) then sum_ge l (inorder cl) else sum_ge l (inorder cr)
                            end.
Proof.
  revert res. induction p as [|cl IHl cr IHr v c h s]; intros res Hw Hb; [simpl; lia|].
  destruct Hw as (Hwl & Hwr & _). pose proof Hb as (Hbl & Hbr & _)%bst_Node.
  cbn [left_walk]. case_decide as Hnull.
  { destruct Hnull as [-> ->]. case_decide; unfold sum_ge; simpl; lia. }
  destruct (v >=? l) eqn:E; [rewrite decide_True by lia | rewrite decide_False by lia].
  - destruct cl as [|nl nr nv nc nh ns]; [unfold sum_ge; simpl; lia|].
    rewrite IHl, left_add_Node, sum_ge_Node by (done || apply Hwl). case_decide; lia.
  - destruct cr as [|nl nr nv nc nh ns]; [unfold sum_ge; simpl; lia|].
    rewrite IHr, left_add_Node, sum_ge_Node by (done || apply Hwr). case_decide; lia.
Qed.

Lemma right_walk_spec p r res :
  wf p → bst p →
  right_walk p r res = res + match p with
                             | nullptr => 0
                             | Node cl cr v _ _ _ =>
                                 if decide (v ≤ r) then sum_le r (inorder cr) else sum_le r (inorder cl)
                             end.
Proof.
  revert res. induction p as [|cl IHl cr IHr v c h s]; intros res Hw Hb; [simpl; lia|].
  destruct Hw as (Hwl & Hwr & _). pose proof Hb as (Hbl & Hbr & _)%bst_Node.
  cbn [right_walk]. case_decide as Hnull.
  { destruct Hnull as [-> ->]. case_decide; unfold sum_le; simpl; lia. }
  destruct (v <=? r) eqn:E; [rewrite decide_True by lia | rewrite decide_False by lia].
  - destruct cr as [|nl nr nv nc nh ns]; [unfold sum_le; simpl; lia|].
    rewrite IHr, right_add_Node, sum_le_Node by (done || apply Hwr). case_decide; lia.
  - destruct cl as [|nl nr nv nc nh ns]; [unfold sum_le; simpl; lia|].
    rewrite IHl, right_add_Node, sum_le_Node by (done || apply Hwl). case_decide; lia.
Qed.

(** A node below the range contributes its right subtree only. *)
Lemma in_range_below l r cl cr v c h s :
  bst (Node cl cr v c h s) → v < l →
  in_range l r (inorder (Node cl cr v c h s)) = in_range l r (inorder cr).
Proof.
  intros (_ & _ & Hl & _)%bst_Node Hv. unfold in_range. simpl.
  rewrite list.filter_app, filter_cons, decide_False by lia.
  rewrite (filter_Forall_none _ (inorder cl)); [done|].
  apply (Forall_weaken _ _ _ Hl). intros; lia.
Qed.

Lemma in_range_above l r cl cr v c h s :
  bst (Node cl cr v c h s) → r < v →
  in_range l r (inorder (Node cl cr v c h s)) = in_range l r (inorder cl).
Proof.
  intros (_ & _ & _ & Hr)%bst_Node Hv. unfold in_range. simpl.
  rewrite list.filter_app, filter_cons, decide_False by lia.
  rewrite (filter_Forall_none _ (inorder cr)); [by rewrite app_nil_r|].
  apply (Forall_weaken _ _ _ Hr). intros; lia.
Qed.

(** At the split node the range is the elements [>= l] on the left, the
    node, and the elements [<= r] on the right. *)
Lemma in_range_split l r sl sr sv c h s :
  bst (Node sl sr sv c h s) → l ≤ sv ≤ r →
  Σ (in_range l r (inorder (Node sl sr sv c h s))) = sum_ge l (inorder sl) + sv + sum_le r (inorder sr).
Proof.
  intros (_ & _ & Hl & Hr)%bst_Node Hv. unfold in_range, sum_ge, sum_le. simpl.
  rewrite list.filter_app, filter_cons, sum_list_app, decide_True by lia. simpl.
  rewrite (filter_Forall_ext _ (λ y, l ≤ y) (inorder sl)),
    (filter_Forall_ext _ (λ y, y ≤ r) (inorder sr)); [lia| |].
  - apply (Forall_weaken _ _ _ Hr). intros; lia.
  - apply (Forall_weaken _ _ _ Hl). intros; lia.
Qed.

Lemma find_split_spec p l r :
  wf p → bst p →
  match find_split p l r with
  | None => in_range l r (inorder p) = []
  | Some sp => wf sp ∧ bst sp ∧ sp ≠ nullptr ∧ l ≤ value_of sp ≤ r ∧
               in_range l r (inorder p) = in_range l r (inorder sp)
  end.
Proof.
  induction p as [|cl IHl cr IHr v c h s]; intros Hw Hb; [done|].
  pose proof Hb as (Hbl & Hbr & _)%bst_Node. pose proof Hw as (Hwl & Hwr & _).
  cbn [find_split]. destruct (v <? l) eqn:E1.
  { rewrite in_range_below by (done || lia). destruct cr; [done|]. by apply IHr. }
  destruct (v >? r) eqn:E2.
  { rewrite in_range_above by (done || lia). destruct cl; [done|]. by apply IHl. }
  cbn [value_of]. split_and!; try done; lia.
Qed.

(** ** Correctness of the queries *)

(** C11: [lower_bound] returns the number of elements strictly below the value. *)
Theorem lower_bound_correct t value :
  tree_inv t → lower_bound t value = Z.of_nat (count_lt value (elements t)).
Proof. intros (? & ? & _). unfold lower_bound. by rewrite lower_bound_loop_spec. Qed.

Lemma lower_bound_correct_witness :
  tree_inv example_tree ∧ lower_bound example_tree 3 = Z.of_nat (count_lt 3 (elements example_tree)).
Proof.
  assert (tree_inv example_tree) as H by decide_compute.
  split; [exact H|apply (lower_bound_correct example_tree 3 H)].
Defined.

(** C12: [upper_bound] returns the number of elements at most the value. *)
Theorem upper_bound_correct t value :
  tree_inv t → upper_bound t value = Z.of_nat (count_le value (elements t)).
Proof. intros (? & ? & _). unfold upper_bound. by rewrite upper_bound_loop_spec. Qed.

Lemma upper_bound_correct_witness :
  tree_inv example_tree ∧ upper_bound example_tree 2 = Z.of_nat (count_le 2 (elements example_tree)).
Proof.
  assert (tree_inv example_tree) as H by decide_compute.
  split; [exact H|apply (upper_bound_correct example_tree 2 H)].
Defined.

(** C13: [find] returns [-1] exactly for an absent value, and otherwise the
    rank of an occurrence of the value in the sorted elements. *)
Theorem find_correct t value :
  tree_inv t →
  (value ∉ elements t → find t value = -1) ∧
  (value ∈ elements t → ∃ k, find t value = Z.of_nat k ∧ elements t !! k = Some value).
Proof.
  intros (? & ? & _). unfold find, elements. split.
  - apply find_loop_absent.
  - intros Hin. destruct (find_loop_present (root t) value 0) as (k & -> & Hk); [done..|].
    exists k. split; [lia|done].
Qed.

Lemma find_correct_witness :
  tree_inv example_tree ∧ (2 ∉ elements example_tree → find example_tree 2 = -1) ∧
  (2 ∈ elements example_tree →
     ∃ k, find example_tree 2 = Z.of_nat k ∧ elements example_tree !! k = Some 2).
Proof.
  assert (tree_inv example_tree) as H by decide_compute.
  split; [exact H|apply (find_correct example_tree 2 H)].
Defined.

(** C14: [operator\[\](idx)] reads only the low 32 bits of [idx] through
    [int(idx)]: when they denote a non-negative [int] it returns the
    element at that position of the sorted elements, or faults (null
    dereference) past the end; when they denote a negative [int] it
    faults.  So an index of [2^32] or more wraps around. *)
Theorem operator_at_correct t idx :
  wf (root t) →
  operator_at t idx =
    if decide (idx mod 2^32 < 2^31) then elements t !! Z.to_nat (idx mod 2^32) else None.
Proof.
  intros Hw. unfold operator_at. rewrite (at_loop_congr _ idx (idx mod 2^32)) by mod_lia.
  case_decide.
  - apply at_loop_spec; [done|]. pose proof (Z.mod_pos_bound idx (2^32)). lia.
  - apply at_loop_negative; [done|]. unfold int_of. mod_lia.
Qed.

(** On [example_tree] the index [2^32 + 1] wraps to [1]. *)
Lemma operator_at_correct_witness :
  wf (root example_tree) ∧
  operator_at example_tree (2^32 + 1) =
    if decide ((2^32 + 1) mod 2^32 < 2^31) then elements example_tree !! Z.to_nat ((2^32 + 1) mod 2^32)
    else None.
Proof.
  assert (wf (root example_tree)) as H by decide_compute.
  split; [exact H|apply (operator_at_correct example_tree _ H)].
Defined.

(** C18: [find_min] and [find_max] return the first and last element, and
    fault on an empty tree. *)
Theorem find_min_max_correct t :
  find_min t = head (elements t) ∧ find_max t = list.last (elements t).
Proof. split; [apply find_min_loop_spec | apply find_max_loop_spec]. Qed.

(** C10: [sum l r] returns the sum of the elements in [\[l, r\]] when
    [l <= r], and fails its assertion otherwise. *)
Theorem sum_correct t l r :
  tree_inv t → sum t l r = if decide (l ≤ r) then Some (Σ (in_range l r (elements t))) else None.
Proof.
  intros (Hw & Hb & _). unfold sum, elements. case_decide; [|by rewrite Z_leb_false by lia].
  rewrite Z_leb_true by done. cbn [negb].
  destruct (root t) as [|pl pr pv pc ph ps]; [done|].
  pose proof (find_split_spec (Node pl pr pv pc ph ps) l r Hw Hb) as Hs.
  destruct (find_split _ l r) as [sp|]; [|by rewrite Hs].
  destruct Hs as (HwS & HbS & HS & Hv & ->).
  destruct sp as [|sl sr sv sc sh ss]; [done|]. cbn [value_of] in *.
  rewrite right_walk_spec, left_walk_spec, in_range_split by done.
  rewrite !decide_True by lia. f_equal. lia.
Qed.

Lemma sum_correct_witness :
  tree_inv example_tree ∧ sum example_tree 2 3 =
    if decide (2 ≤ 3) then Some (Σ (in_range 2 3 (elements example_tree))) else None.
Proof.
  assert (tree_inv example_tree) as H by decide_compute.
  split; [exact H|apply (sum_correct example_tree 2 3 H)].
Defined.

(** C19: rank/order duality.  On a tree of distinct values whose size
    fits in an [int], the element at every position [i] below [size] is
    found by [find] at rank [i]. *)
Theorem find_operator_at t i :
  tree_inv t → size t < 2^31 → NoDup (elements t) → 0 ≤ i < size t →
  ∃ x, operator_at t i = Some x ∧ find t x = i.
Proof.
  intros Hinv Hint Hnd Hi. destruct Hinv as (Hw & Hb & Hs).
  unfold size in Hi, Hint. rewrite Hs, wf_count in Hi, Hint by done.
  destruct (lookup_lt_is_Some_2 (elements t) (Z.to_nat i)) as [x Hx]; [unfold elements; lia|].
  exists x. split; [unfold operator_at; by rewrite at_loop_spec by (done || lia)|].
  destruct (find_loop_present (root t) x 0) as (k & Hf & Hk);
    [done|done|by eapply list_elem_of_lookup_2|].
  unfold find. rewrite Hf. pose proof (NoDup_lookup _ _ _ _ Hnd Hk Hx). lia.
Qed.

Lemma find_operator_at_witness :
  tree_inv example_tree ∧ size example_tree < 2^31 ∧ NoDup (elements example_tree) ∧
  0 ≤ 1 < size example_tree ∧
  ∃ x, operator_at example_tree 1 = Some x ∧ find example_tree x = 1.
Proof.
  split_and!; [decide_compute|done|decide_compute|done|done|].
  apply (find_operator_at example_tree 1); [decide_compute|done|decide_compute|done].
Defined.

(** C20: on a tree whose size fits in an [int], [operator\[\]] at
    [lower_bound v] is the first element at least [v], and faults when
    there is none. *)
Theorem operator_at_lower_bound t v :
  tree_inv t → size t < 2^31 →
  operator_at t (lower_bound t v) = head (filter (λ y, v ≤ y) (elements t)).
Proof.
  intros (Hw & Hb & Hs) Hint. unfold size in Hint. rewrite Hs, wf_count in Hint by done.
  unfold operator_at, lower_bound. rewrite lower_bound_loop_spec, Z.add_0_l by done.
  assert (count_lt v (inorder (root t)) ≤ length (inorder (root t)))%nat
    by (unfold count_lt; apply length_filter).
  rewrite at_loop_spec by (done || lia). rewrite Nat2Z.id.
  unfold elements, count_lt. set (L := inorder (root t)).
  transitivity ((filter (λ y, y < v) L ++ filter (λ y, v ≤ y) L) !! length (filter (λ y, y < v) L)).
  { by rewrite <-(sorted_filter_split v L). }
  rewrite lookup_app_r, Nat.sub_diag by lia. by destruct (filter _ _).
Qed.

Lemma operator_at_lower_bound_witness :
  tree_inv example_tree ∧ size example_tree < 2^31 ∧
  operator_at example_tree (lower_bound example_tree 2) =
    head (filter (λ y, 2 ≤ y) (elements example_tree)).
Proof.
  assert (tree_inv example_tree) as H by decide_compute.
  assert (size example_tree < 2^31) as Hs by done.
  split_and!; [exact H|exact Hs|apply (operator_at_lower_bound example_tree 2 H Hs)].
Defined.

End Query.
