(* ===== verification/AVL.v ===== *)
(** * AVL: the height invariant under insertion

    The AVL invariant [balanced] (every node's subtrees differ in height
    by at most one, the heights being those of the subtrees, not the
    cached fields) is restored by [insert] (src/onefile.cpp, lines
    145-164, through [balance], lines 236-259).  The argument is the
    classical one: inserting into a subtree raises its height by at most
    one, and when it does the raised subtree is a fresh leaf or leans to
    one side.  So when a node's balance factor reaches 2, its taller
    child's factor is +1 or -1, and the code's choice (single rotation on
    [>= 1], double rotation otherwise) is the right one.

    The same choice is wrong for deletion, where the taller child may be
    level: see [Machine.erase_breaks_balance].

    A balanced tree of height [h] holds at least [2 ^ (h / 2) - 1] values
    ([balanced_size]), so on it the search loops of [insert] and [erase],
    whose recorded paths [balance] then walks, have logarithmic length
    ([descent_length]). *)

From Stdlib Require Import ZArith Lia.
From stdpp Require Import base list numbers.
From S2P Require Import Prelude.
From S2P Require Import Node.
From S2P Require Import Slot.
From S2P Require Import Balance.
From S2P Require Import Tree.
From S2P Require Import Insert.
From S2P Require Import Erase.
Import AVLNode Slot Balance Tree Insert Erase.

Open Scope Z_scope.
Open Scope avl_scope.

Module AVL.

(** The AVL height invariant at every node. *)
Fixpoint balanced (p : AVLTreeNode) : Prop :=
  match p with
  | nullptr => True
  | Node l r _ _ _ _ => balanced l ∧ balanced r ∧ -1 ≤ height l - height r ≤ 1
  end.

#[export] Instance balanced_dec p : Decision (balanced p).
Proof. induction p; simpl; apply _. Defined.

(** The balance factor of the abstract tree. *)
Definition bf (p : AVLTreeNode) : Z := height (left p) - height (right p).

(** ** Lemmas *)

Lemma rotr_node_Node a b y c h s r x :
  rotr (node (Node a b y c h s) r x) = node a (node b r x) y.
Proof. done. Qed.

Lemma rotl_node_Node l a b y c h s x :
  rotl (node l (Node a b y c h s) x) = node (node l a x) b y.
Proof. done. Qed.

Lemma rotr_node_node a b y r x :
  rotr (node (node a b y) r x) = node a (node b r x) y.
Proof. done. Qed.

Lemma rotl_node_node l a b y x :
  rotl (node l (node a b y) x) = node (node l a x) b y.
Proof. done. Qed.

Lemma balanced_node l r v :
  balanced (node l r v) ↔ balanced l ∧ balanced r ∧ -1 ≤ height l - height r ≤ 1.
Proof. done. Qed.

Lemma rebalance_level l r v c h s :
  -1 ≤ height l - height r ≤ 1 → rebalance (Node l r v c h s) = node l r v.
Proof. intros. unfold rebalance. by rewrite !decide_False by lia. Qed.

(** A left subtree two levels taller and leaning to one side is fixed by
    one rotation or two, and the result is as tall as the left subtree. *)
Lemma rebalance_left_heavy l r v c h s :
  balanced l → balanced r → height l = height r + 2 → bf l ≠ 0 →
  balanced (rebalance (Node l r v c h s)) ∧ height (rebalance (Node l r v c h s)) = height l.
Proof.
  intros Hl Hr Hh Hbf. unfold rebalance. rewrite decide_True by lia.
  destruct l as [|a b y lc lh ls]; [simpl in Hh; pose proof (height_nonneg r); lia|].
  destruct Hl as (Ha & Hb & Hab). unfold bf in Hbf. cbn [left right height] in *.
  pose proof (height_nonneg a). pose proof (height_nonneg b). pose proof (height_nonneg r).
  destruct (decide (1 ≤ height a - height b)).
  { rewrite rotr_node_Node. rewrite !balanced_node, !height_node. split_and!; auto; lia. }
  destruct b as [|b1 b2 z bc bh bs]; [simpl in *; lia|].
  destruct Hb as (Hb1 & Hb2 & Hb12). cbn [height] in *.
  rewrite rotl_Node, rotr_node_node.
  rewrite !balanced_node, !height_node. split_and!; auto; lia.
Qed.

Lemma rebalance_right_heavy l r v c h s :
  balanced l → balanced r → height r = height l + 2 → bf r ≠ 0 →
  balanced (rebalance (Node l r v c h s)) ∧ height (rebalance (Node l r v c h s)) = height r.
Proof.
  intros Hl Hr Hh Hbf. unfold rebalance. rewrite decide_False, decide_True by lia.
  destruct r as [|a b y rc rh rs]; [simpl in Hh; pose proof (height_nonneg l); lia|].
  destruct Hr as (Ha & Hb & Hab). unfold bf in Hbf. cbn [left right height] in *.
  pose proof (height_nonneg a). pose proof (height_nonneg b). pose proof (height_nonneg l).
  destruct (decide (height a - height b ≤ -1)).
  { rewrite rotl_node_Node. rewrite !balanced_node, !height_node. split_and!; auto; lia. }
  destruct a as [|a1 a2 z ac ah as_]; [simpl in *; lia|].
  destruct Ha as (Ha1 & Ha2 & Ha12). cbn [height] in *.
  rewrite rotr_Node, rotl_node_node.
  rewrite !balanced_node, !height_node. split_and!; auto; lia.
Qed.

(** Insertion keeps the tree balanced and raises its height by at most
    one; a raised tree is a single node or leans to one side. *)
Lemma ins_balanced_height value p :
  balanced p →
  balanced (ins value p) ∧
  (height (ins value p) = height p ∨
   height (ins value p) = height p + 1 ∧ (height (ins value p) = 1 ∨ bf (ins value p) ≠ 0)).
Proof.
  induction p as [|l IHl r IHr x c h s]; intros Hp.
  { cbn [ins]. unfold new_node. rewrite rebalance_level by (simpl; lia). simpl. split_and!; auto; lia. }
  destruct Hp as (Hl & Hr & Hlr). cbn [ins height].
  pose proof (height_nonneg l). pose proof (height_nonneg r).
  destruct (x >? value).
  - destruct (IHl Hl) as (Hl' & Hh').
    pose proof (height_nonneg (ins value l)).
    destruct (decide (height (ins value l) - height r ≤ 1)).
    + rewrite rebalance_level by lia. rewrite balanced_node, height_node.
      unfold bf. rewrite left_node, right_node. split_and!; auto; lia.
    + destruct (rebalance_left_heavy (ins value l) r x c h s) as [Hb Hh]; auto; [lia..|].
      split; [done|]. left. lia.
  - destruct (IHr Hr) as (Hr' & Hh').
    pose proof (height_nonneg (ins value r)).
    destruct (decide (-1 ≤ height l - height (ins value r))).
    + rewrite rebalance_level by lia. rewrite balanced_node, height_node.
      unfold bf. rewrite left_node, right_node. split_and!; auto; lia.
    + destruct (rebalance_right_heavy l (ins value r) x c h s) as [Hb Hh]; auto; [lia..|].
      split; [done|]. left. lia.
Qed.

(** C5: [insert] keeps an AVL-balanced tree balanced. *)
Theorem insert_balanced t value :
  tree_inv t → balanced (root t) →
  ∃ t', insert t value = Some t' ∧ tree_inv t' ∧ balanced (root t').
Proof.
  intros Hinv Hbal. eexists. split_and!; [|apply (ins_tree_inv t value Hinv)|].
  - unfold insert. rewrite insert_root_spec by apply Hinv. done.
  - by apply ins_balanced_height.
Qed.

Lemma insert_balanced_witness :
  tree_inv example_tree ∧ balanced (root example_tree) ∧
  ∃ t', insert example_tree 4 = Some t' ∧ tree_inv t' ∧ balanced (root t').
Proof.
  split_and!; [decide_compute|decide_compute|].
  apply (insert_balanced example_tree 4); decide_compute.
Defined.

(** A balanced tree of height [h] holds at least [2 ^ (h / 2) - 1]
    values. *)
Lemma balanced_size p :
  balanced p → 2 ^ (height p / 2) ≤ Z.of_nat (length (inorder p)) + 1.
Proof.
  induction p as [|l IHl r IHr x c h s]; [done|]. intros (Hl & Hr & Hlr).
  specialize (IHl Hl). specialize (IHr Hr).
  rewrite length_inorder_Node. cbn [height].
  pose proof (height_nonneg l). pose proof (height_nonneg r).
  assert (∀ a b, 0 ≤ a ≤ b → 2 ^ (a / 2) ≤ 2 ^ (b / 2)) as Hmono.
  { intros a b Hab. apply Z.pow_le_mono_r; [lia|]. apply Z.div_le_mono; lia. }
  destruct (decide (Z.max (height l) (height r) = 0)) as [->|]; [change (2 ^ ((0 + 1) / 2)) with 1; lia|].
  assert (Hk : 2 ^ ((Z.max (height l) (height r) + 1) / 2) =
               2 * 2 ^ ((Z.max (height l) (height r) - 1) / 2)).
  { replace (Z.max (height l) (height r) + 1) with
      (Z.max (height l) (height r) - 1 + 1 * 2) by lia.
    rewrite Z.div_add by lia. rewrite Z.pow_add_r, Z.pow_1_r by (try apply Z.div_pos; lia). lia. }
  rewrite Hk. destruct (Z.max_spec (height l) (height r)) as [[? ->]|[? ->]].
  - pose proof (Hmono (height r - 1) (height r) ltac:(lia)).
    pose proof (Hmono (height r - 1) (height l) ltac:(lia)). lia.
  - pose proof (Hmono (height l - 1) (height l) ltac:(lia)).
    pose proof (Hmono (height l - 1) (height r) ltac:(lia)). lia.
Qed.

Lemma balanced_height p :
  balanced p → height p ≤ 2 * Z.log2 (Z.of_nat (length (inorder p)) + 1) + 1.
Proof.
  intros Hb. pose proof (balanced_size p Hb) as Hs. pose proof (height_nonneg p).
  apply Z.log2_le_mono in Hs. rewrite Z.log2_pow2 in Hs by (apply Z.div_pos; lia). mod_lia.
Qed.

Lemma insert_dirs_height value p : Z.of_nat (length (insert_dirs value p)) ≤ height p.
Proof.
  induction p as [|l IHl r IHr x c h s]; simpl; [done|].
  destruct (x >? value); simpl; lia.
Qed.

Lemma erase_dirs_height value p : Z.of_nat (length (erase_dirs value p)) ≤ height p.
Proof.
  induction p as [|l IHl r IHr x c h s]; simpl; [done|].
  destruct (x =? value); [simpl; lia|]. destruct (x >? value); simpl; lia.
Qed.

(** C22: on an AVL-balanced tree satisfying the invariant, the search
    loops of [insert] (lines 150-157) and [erase] (lines 171-178) run at
    most [2 log2 (size + 1) + 1] iterations: the [path] each records, and
    over which [balance] then loops, has at most that many slots before
    the final push. *)
Theorem descent_length t value :
  tree_inv t → balanced (root t) →
  (let '(path, _) := insert_descent (root t) value [] [] in
   Z.of_nat (length path) ≤ 2 * Z.log2 (_size t + 1) + 1) ∧
  (let '(path, _) := erase_descent (root t) value [] [] in
   Z.of_nat (length path) ≤ 2 * Z.log2 (_size t + 1) + 1).
Proof.
  intros (Hw & _ & Hs) Hb. rewrite Hs, wf_count by done.
  pose proof (balanced_height _ Hb) as Hh.
  pose proof (insert_descent_path (root t) value [] []) as Hi.
  pose proof (erase_descent_path (root t) value [] []) as He.
  destruct (insert_descent _ _ _ _) as [path1 ind1], (erase_descent _ _ _ _) as [path2 ind2].
  destruct Hi as [Hi _], He as [He _]. apply (f_equal length) in Hi, He.
  rewrite app_nil_l, length_app, length_prefixes_from in Hi, He. simpl in Hi, He.
  pose proof (insert_dirs_height value (root t)). pose proof (erase_dirs_height value (root t)).
  split; lia.
Qed.

Lemma descent_length_witness :
  tree_inv example_tree ∧ balanced (root example_tree) ∧
  (let '(path, _) := insert_descent (root example_tree) 4 [] [] in
   Z.of_nat (length path) ≤ 2 * Z.log2 (_size example_tree + 1) + 1) ∧
  (let '(path, _) := erase_descent (root example_tree) 4 [] [] in
   Z.of_nat (length path) ≤ 2 * Z.log2 (_size example_tree + 1) + 1).
Proof.
  assert (tree_inv example_tree) as H by decide_compute.
  assert (balanced (root example_tree)) as Hb by decide_compute.
  split_and!; [exact H|exact Hb|apply (descent_length example_tree 4 H Hb)..].
Defined.

End AVL.
