(* ===== verification/Machine.v ===== *)
(** * Machine: sequences of public operations on one [AVLTree]

    A client of [class AVLTree<T>] (src/onefile.cpp) drives one tree
    through its mutating members [insert], [erase] and [clear].  [op]
    names these calls, [step] runs one of them on the state, and [run] a
    sequence in order.  The reachable states of [AVLTree()] are the
    inductive [reachable].

    [multiset_step] is the abstract contract: the tree is a sorted
    multiset, [insert] adds one occurrence, [erase] removes one, [clear]
    empties it.  [run_refines] is the simulation: from any state
    satisfying [tree_inv], a sequence never faults and the elements
    follow the abstract multiset.  [reachable_inv] is the invariant by
    rule induction.  [erase_breaks_balance] is the state, reachable by
    nine insertions, where [erase] leaves the tree unbalanced. *)

From Stdlib Require Import ZArith Lia.
From stdpp Require Import base list numbers sets.
From S2P Require Import Prelude.
From S2P Require Import Node.
From S2P Require Import Slot.
From S2P Require Import Balance.
From S2P Require Import Tree.
From S2P Require Import Insert.
From S2P Require Import Erase.
From S2P Require Import AVL.
Import AVLNode Slot Balance Tree Insert Erase AVL.

Open Scope Z_scope.
Open Scope avl_scope.

Module Machine.

(** The mutating members. *)
Inductive op : Type :=
  | OpInsert (value : Z)
  | OpErase (value : Z)
  | OpClear.

Definition step (t : AVLTree) (o : op) : option AVLTree :=
  match o with
  | OpInsert v => insert t v
  | OpErase v => erase t v
  | OpClear => clear t
  end.

Fixpoint run (t : AVLTree) (ops : list op) : option AVLTree :=
  match ops with
  | [] => Some t
  | o :: ops' => t' ← step t o; run t' ops'
  end.

(** The abstract multiset each call promises. *)
Definition multiset_step (L : list Z) (o : op) : list Z :=
  match o with
  | OpInsert v => ins_sorted v L
  | OpErase v => remove_one v L
  | OpClear => []
  end.

Definition multiset_run (L : list Z) (ops : list op) : list Z :=
  foldl multiset_step L ops.

Inductive reachable : AVLTree → Prop :=
  | reachable_new : reachable AVLTree_new
  | reachable_step t o t' : reachable t → step t o = Some t' → reachable t'.

(** The search-tree order of the specification's data model: values in a
    left subtree strictly below the node's, values in a right subtree at
    least the node's. *)
Fixpoint spec_bst (p : AVLTreeNode) : Prop :=
  match p with
  | nullptr => True
  | Node l r v _ _ _ =>
      spec_bst l ∧ spec_bst r ∧ Forall (λ y, y < v) (inorder l) ∧ Forall (λ y, v ≤ y) (inorder r)
  end.

#[export] Instance spec_bst_dec p : Decision (spec_bst p).
Proof. induction p; simpl; apply _. Defined.

(** ** Lemmas *)

Lemma step_spec t o :
  tree_inv t → ∃ t', step t o = Some t' ∧ tree_inv t' ∧
    elements t' = multiset_step (elements t) o.
Proof.
  intros Hinv. destruct o as [v|v|]; simpl.
  - destruct (ins_tree_inv t v Hinv) as [Hinv' He]. eexists. split_and!; [|exact Hinv'|exact He].
    unfold insert. rewrite insert_root_spec by apply Hinv. done.
  - destruct (erase_spec t v Hinv) as (t' & ? & ? & ? & _). by exists t'.
  - destruct Hinv as (Hw & _ & Hs). unfold clear.
    destruct (clear_stack_nodes (root t)) as [Hne Hn].
    rewrite clear_loop_nodes by (done || lia). eexists. split_and!; [done| |done].
    unfold tree_inv. simpl. rewrite Hn, Hs, wf_count by done. split_and!; [done|constructor|lia].
Qed.

Lemma run_app t ops1 ops2 : run t (ops1 ++ ops2) = run t ops1 ≫= λ t', run t' ops2.
Proof.
  revert t. induction ops1 as [|o ops1 IH]; intros t; simpl; [done|].
  destruct (step t o); simpl; [apply IH|done].
Qed.

Lemma run_reachable t ops t' : reachable t → run t ops = Some t' → reachable t'.
Proof.
  revert t. induction ops as [|o ops IH]; intros t Ht; simpl; [by intros [= <-]|].
  destruct (step t o) as [t1|] eqn:E; [|done]. simpl. apply IH. by econstructor.
Qed.

(** The simulation, by induction on the sequence. *)
Lemma run_spec t ops :
  tree_inv t → ∃ t', run t ops = Some t' ∧ tree_inv t' ∧
    elements t' = multiset_run (elements t) ops.
Proof.
  revert t. induction ops as [|o ops IH]; intros t Hinv; simpl; [by exists t|].
  destruct (step_spec t o Hinv) as (t1 & -> & Hinv1 & He1). simpl.
  destruct (IH t1 Hinv1) as (t' & Hrun & Hinv' & He'). exists t'. by rewrite Hrun, He', He1.
Qed.

Lemma multiset_run_inserts L vs : multiset_run L (map OpInsert vs) ≡ₚ vs ++ L.
Proof.
  revert L. induction vs as [|v vs IH]; intros L; [done|]. unfold multiset_run in *. simpl.
  rewrite IH, ins_sorted_perm. solve_Permutation.
Qed.

Lemma multiset_run_erases L ws : L ≡ₚ ws → multiset_run L (map OpErase ws) = [].
Proof.
  revert L. induction ws as [|w ws IH]; intros L HL; [by apply Permutation_nil_r|].
  unfold multiset_run in *. simpl. apply IH.
  assert (w ∈ L) as Hw by (rewrite HL; set_solver).
  apply (Permutation_cons_inv (a := w)). by rewrite <-remove_one_perm, HL.
Qed.

(** A tree satisfying the invariant with no elements is the empty tree. *)
Lemma tree_inv_nil t : tree_inv t → elements t = [] → t = AVLTree_new.
Proof.
  destruct t as [sz [|l r v c h s]]; unfold tree_inv, elements; simpl; [|by destruct (inorder l)].
  intros (_ & _ & ->) _. done.
Qed.

(** ** Theorems *)

(** C3: from any state satisfying the invariant, every sequence of
    [insert], [erase] and [clear] calls runs without fault, keeps the
    invariant, and the elements are those of the abstract multiset after
    the same calls. *)
Theorem run_refines t ops :
  tree_inv t → ∃ t', run t ops = Some t' ∧ tree_inv t' ∧
    elements t' = multiset_run (elements t) ops.
Proof. apply run_spec. Qed.

Lemma run_refines_witness :
  tree_inv example_tree ∧
  ∃ t', run example_tree [OpInsert 4; OpErase 2; OpClear; OpInsert 7] = Some t' ∧ tree_inv t' ∧
    elements t' = multiset_run (elements example_tree) [OpInsert 4; OpErase 2; OpClear; OpInsert 7].
Proof.
  assert (tree_inv example_tree) as H by decide_compute.
  split; [exact H|apply (run_refines example_tree _ H)].
Defined.

(** C21: round trip.  Inserting values into a fresh tree and then erasing
    the same values, in any order, gives back the freshly constructed
    tree: [_size] is [0] and [root] is [nullptr]. *)
Theorem round_trip vs ws :
  ws ≡ₚ vs → run AVLTree_new (map OpInsert vs ++ map OpErase ws) = Some AVLTree_new.
Proof.
  intros Hp. destruct (run_spec AVLTree_new (map OpInsert vs ++ map OpErase ws))
    as (t' & -> & Hinv & He); [decide_compute|].
  f_equal. apply tree_inv_nil; [done|]. rewrite He. unfold multiset_run.
  rewrite foldl_app. apply multiset_run_erases. rewrite multiset_run_inserts, Hp.
  simpl. by rewrite app_nil_r.
Qed.

Lemma round_trip_witness :
  [3; 1; 2] ≡ₚ [1; 2; 3] ∧
  run AVLTree_new (map OpInsert [1; 2; 3] ++ map OpErase [3; 1; 2]) = Some AVLTree_new.
Proof.
  assert ([3; 1; 2] ≡ₚ [1; 2; 3]) as H by solve_Permutation.
  split; [exact H|apply (round_trip _ _ H)].
Defined.

(** C4: every state reachable from the constructor by the public calls
    satisfies the invariant: exact cached fields, search-tree order, and
    [_size] equal to the number of values. *)
Theorem reachable_inv t : reachable t → tree_inv t.
Proof.
  induction 1 as [|t o t' _ IH Hstep]; [decide_compute|].
  destruct (step_spec t o IH) as (t1 & Heq & Hinv & _). congruence.
Qed.

(** The state after inserting 5 into a fresh tree. *)
Lemma reachable_inv_witness :
  reachable {| _size := 1; root := Node nullptr nullptr 5 1 1 5 |} ∧
  tree_inv {| _size := 1; root := Node nullptr nullptr 5 1 1 5 |}.
Proof.
  assert (reachable {| _size := 1; root := Node nullptr nullptr 5 1 1 5 |}) as H.
  { apply (reachable_step AVLTree_new (OpInsert 5)); [constructor|vm_compute; reflexivity]. }
  split; [exact H|apply (reachable_inv _ H)].
Defined.

(** C6: [erase] does not preserve the AVL balance.  After inserting
    7, 4, 8, 2, 5, 9, 1, 3, 6 the tree is balanced; erasing 9 leaves the
    root's left child with a left subtree of height 2 and no right
    subtree, because [balance] applies a double rotation to a node whose
    taller child is level. *)
Theorem erase_breaks_balance :
  ∃ t t', reachable t ∧ balanced (root t) ∧ erase t 9 = Some t' ∧
    tree_inv t' ∧ ¬ balanced (root t').
Proof.
  set (ops := map OpInsert [7; 4; 8; 2; 5; 9; 1; 3; 6]).
  destruct (run AVLTree_new ops) as [t|] eqn:Hrun; [|vm_compute in Hrun; done].
  assert (reachable t) as Hr by (eapply run_reachable; [constructor|exact Hrun]).
  vm_compute in Hrun. injection Hrun as <-.
  eexists _, _. split_and!; [exact Hr|decide_compute|vm_compute; reflexivity|
                             decide_compute|decide_compute].
Qed.

(** C23: the code does not keep the strict order of the specification's
    data model.  Inserting 2 three times routes each copy right, but the
    rotation [balance] then applies puts a 2 in the root's left subtree:
    the reachable tree satisfies [tree_inv] (order with ties on both
    sides) and not [spec_bst]. *)
Theorem equal_values_left :
  ∃ t, reachable t ∧ tree_inv t ∧ elements t = [2; 2; 2] ∧ ¬ spec_bst (root t).
Proof.
  destruct (run AVLTree_new (map OpInsert [2; 2; 2])) as [t|] eqn:Hrun;
    [|vm_compute in Hrun; done].
  assert (reachable t) as Hr by (eapply run_reachable; [constructor|exact Hrun]).
  vm_compute in Hrun. injection Hrun as <-.
  eexists. split_and!; [exact Hr|decide_compute|vm_compute; reflexivity|decide_compute].
Qed.

End Machine.
